(** * Python_Simple_Compiler: lexer, parser and symbol tables of compiler.py

    A shallow embedding of [src/compiler.py].  Python [str] values are Rocq
    [string]s (characters are the code points 0..255), token kinds are the
    strings the source uses ('IDENTIFIER', 'NUMBER', ...), a token is the
    pair [(token_type, value)].  Exceptions are values of [exn]; a method
    that can raise returns a [result]. *)

From Stdlib Require Import ZArith Ascii String Bool.
From Stdlib Require OrderedTypeEx.
From stdpp Require Import base option list strings gmap.

Local Open Scope nat_scope.

(** ** Python strings *)

Module Str.

(** [code[pos:]] *)
Fixpoint drop (n : nat) (s : string) : string :=
  match n, s with
  | 0, _ => s
  | S n', String _ s' => drop n' s'
  | S _, EmptyString => EmptyString
  end.

(** [code[:n]] *)
Fixpoint take (n : nat) (s : string) : string :=
  match n, s with
  | 0, _ => EmptyString
  | S n', String c s' => String c (take n' s')
  | S _, EmptyString => EmptyString
  end.

(** [code[a:b]] for [0 <= a <= b] *)
Definition slice (a b : nat) (s : string) : string := take (b - a) (drop a s).

(** [code[pos]] as a one-character string; [None] stands for IndexError *)
Definition index (s : string) (pos : nat) : option string :=
  c ← String.get pos s;
  Some (String c EmptyString).

(** [''.join(l)] *)
Definition join (l : list string) : string :=
  foldr String.append EmptyString l.

End Str.

(** ** The regular expressions of the lexer

    Every pattern of [Lexer.patterns] is a sequence of character classes,
    each taken once, or under a greedy [*] or [+].  [match_regex] is the
    backtracking matcher of such a sequence: a starred class first takes as
    many characters as it can and gives them back one at a time while the
    rest of the pattern fails. *)

Module Re.

Inductive quant := One | Star | Plus.

Definition regex := list ((ascii -> bool) * quant).

Definition in_range (lo hi c : ascii) : bool :=
  (N_of_ascii lo <=? N_of_ascii c)%N && (N_of_ascii c <=? N_of_ascii hi)%N.

Definition is_char (a c : ascii) : bool := Ascii.eqb a c.

(** [[a-zA-Z_]] *)
Definition ident_start (c : ascii) : bool :=
  in_range "a" "z" c || in_range "A" "Z" c || is_char "_" c.

(** [\d]: among the code points 0..255 the decimal digits are 0 to 9 *)
Definition digit (c : ascii) : bool := in_range "0" "9" c.

(** [[a-zA-Z0-9_]] *)
Definition ident_char (c : ascii) : bool :=
  in_range "a" "z" c || in_range "A" "Z" c || in_range "0" "9" c
  || is_char "_" c.

(** [[-+*/=(),]] *)
Definition op_char (c : ascii) : bool :=
  is_char "-" c || is_char "+" c || is_char "*" c || is_char "/" c
  || is_char "=" c || is_char "(" c || is_char ")" c || is_char "," c.

Definition dquote : ascii := ascii_of_nat 34.
Definition newline : ascii := ascii_of_nat 10.

(** the double quote character, code point 34 *)
Definition quote_char (c : ascii) : bool := is_char dquote c.

(** any character but the double quote *)
Definition not_quote (c : ascii) : bool := negb (is_char dquote c).

(** [#] *)
Definition hash_char (c : ascii) : bool := is_char "#" c.

(** [.] : any character but the newline *)
Definition dot (c : ascii) : bool := negb (is_char newline c).

(** One character of the class, then the rest [k]; the result is the
    number of characters matched. *)
Definition match_one (cls : ascii -> bool) (k : string -> option nat)
    (s : string) : option nat :=
  match s with
  | String c s' => if cls c then S <$> k s' else None
  | EmptyString => None
  end.

(** Greedy [cls*] followed by [k]. *)
Fixpoint match_star (cls : ascii -> bool) (k : string -> option nat)
    (s : string) : option nat :=
  match s with
  | String c s' =>
      if cls c then
        match match_star cls k s' with
        | Some n => Some (S n)
        | None => k s
        end
      else k s
  | EmptyString => k s
  end.

Fixpoint match_regex (r : regex) (s : string) : option nat :=
  match r with
  | [] => Some 0
  | (cls, One) :: r' => match_one cls (match_regex r') s
  | (cls, Star) :: r' => match_star cls (match_regex r') s
  | (cls, Plus) :: r' => match_one cls (match_star cls (match_regex r')) s
  end.

(** A match object: [start()], [end()] and [group(0)]. *)
Record Match := { m_start : nat; m_end : nat; group0 : string }.

(** [regex.match(code, pos)]: the pattern must match at [pos]. *)
Definition regex_match (r : regex) (code : string) (pos : nat)
    : option Match :=
  n ← match_regex r (Str.drop pos code);
  Some {| m_start := pos; m_end := pos + n;
          group0 := Str.slice pos (pos + n) code |}.

(** *** Notions for the proofs about the matcher *)

(** A continuation never claims more characters than its input has. *)
Definition bounded (k : string -> option nat) : Prop :=
  forall s n, k s = Some n -> n <= String.length s.

(** A pattern that begins with a class taken once, or with [+]: it
    matches no empty span. *)
Definition nonempty (r : regex) : Prop :=
  match r with
  | (_, One) :: _ | (_, Plus) :: _ => True
  | _ => False
  end.

End Re.

(** ** Lexer *)

Definition token : Type := string * string.

Module Lexer.
Import Re.

(** [self.patterns], in the order of the source. *)
Definition patterns : list (regex * string) :=
  [ ([(ident_start, One); (ident_char, Star)], "IDENTIFIER");
    ([(digit, Plus)], "NUMBER");
    ([(op_char, One)], "OPERATOR");
    ([(quote_char, One); (not_quote, Star); (quote_char, One)], "STRING");
    ([(hash_char, One); (dot, Star)], "COMMENT") ].

(** The [for pattern, token_type in self.patterns] loop: it returns the
    final value of [match] and the token list. *)
Fixpoint scan_patterns (ps : list (regex * string)) (code : string)
    (pos : nat) (tokens : list token) : option Match * list token :=
  match ps with
  | [] => (None, tokens)
  | (pattern, token_type) :: ps' =>
      match regex_match pattern code pos with
      | Some m =>
          let value := group0 m in
          if negb (String.eqb token_type "COMMENT")
          then (Some m, tokens ++ [(token_type, value)])
          else (Some m, tokens)
      | None => scan_patterns ps' code pos tokens
      end
  end.

(** One iteration of the [while] loop: the new [pos] and [tokens]. *)
Definition loop_body (code : string) (pos : nat) (tokens : list token)
    : option (nat * list token) :=
  match scan_patterns patterns code pos tokens with
  | (None, tokens) =>
      c ← Str.index code pos;
      Some (pos + 1, tokens ++ [("INVALID", c)])
  | (Some m, tokens) => Some (m_end m, tokens)
  end.

(** [while pos < len(self.code)]; [None] when the fuel runs out or an
    iteration fails. *)
Fixpoint tokenize_loop (fuel : nat) (code : string) (pos : nat)
    (tokens : list token) : option (list token) :=
  if pos <? String.length code then
    match fuel with
    | 0 => None
    | S fuel' =>
        '(pos', tokens') ← loop_body code pos tokens;
        tokenize_loop fuel' code pos' tokens'
    end
  else Some tokens.

Definition tokenize (code : string) : option (list token) :=
  tokenize_loop (String.length code) code 0 [].

(** *** The spans the scan consumes

    What [tokenize] does not keep: the text every iteration of the loop
    consumes, comments included, in scan order.  [first_match] is the
    pattern that wins at [pos], [consumed] the span of one iteration and
    the position after it. *)

Fixpoint first_match (ps : list (regex * string)) (code : string)
    (pos : nat) : option (Match * string) :=
  match ps with
  | [] => None
  | (pattern, token_type) :: ps' =>
      match regex_match pattern code pos with
      | Some m => Some (m, token_type)
      | None => first_match ps' code pos
      end
  end.

Definition consumed (code : string) (pos : nat) : option (nat * token) :=
  match first_match patterns code pos with
  | Some (m, token_type) => Some (m_end m, (token_type, group0 m))
  | None => c ← Str.index code pos; Some (pos + 1, ("INVALID", c))
  end.

Fixpoint spans_loop (fuel : nat) (code : string) (pos : nat)
    : option (list token) :=
  if pos <? String.length code then
    match fuel with
    | 0 => None
    | S fuel' =>
        '(pos', span) ← consumed code pos;
        (span ::.) <$> spans_loop fuel' code pos'
    end
  else Some [].

Definition spans (code : string) : option (list token) :=
  spans_loop (String.length code) code 0.

(** A span is kept as a token unless it is a comment. *)
Definition emitted (span : token) : bool :=
  negb (String.eqb span.1 "COMMENT").

End Lexer.

(** ** Exceptions *)

Inductive exn :=
| SyntaxError (msg : string)
| TypeError
| IndexError
| ZeroDivisionError.

Inductive result (A : Type) :=
| Ok (a : A)
| Raise (e : exn).
Arguments Ok {A} a.
Arguments Raise {A} e.

Definition rbind {A B} (x : result A) (f : A -> result B) : result B :=
  match x with
  | Ok a => f a
  | Raise e => Raise e
  end.

(** ** Python lists indexed by an integer *)

Module PyList.

(** The position an index denotes: a negative index counts from the end,
    an index out of range raises IndexError. *)
Definition position {A} (l : list A) (i : Z) : result nat :=
  let n := Z.of_nat (length l) in
  if ((0 <=? i) && (i <? n))%Z then Ok (Z.to_nat i)
  else if ((- n <=? i) && (i <? 0))%Z then Ok (Z.to_nat (n + i))
  else Raise IndexError.

(** [l[i]] *)
Definition getitem {A} (l : list A) (i : Z) : result A :=
  rbind (position l i) (fun k =>
    match l !! k with
    | Some x => Ok x
    | None => Raise IndexError
    end).

(** [l[i] = x] *)
Definition setitem {A} (l : list A) (i : Z) (x : A) : result (list A) :=
  rbind (position l i) (fun k => Ok (<[k := x]> l)).

End PyList.

(** ** Parser *)

(** The parse trees: the tuples [('number', text)], [('identifier', text)],
    [('string', text)], [('binop', op, left, right)], and [None], which
    [factor] returns when it falls through its last [elif]. *)
Inductive node :=
| PyNone
| number (text : string)
| identifier (text : string)
| string_ (text : string)
| binop (op : string) (left right : node).

Module Parser.

Record t := mk {
  tokens : list token;
  current_token : option token;
  token_index : Z
}.

Definition advance (self : t) : result t :=
  let token_index := (token_index self + 1)%Z in
  if (token_index <? Z.of_nat (length (tokens self)))%Z then
    rbind (PyList.getitem (tokens self) token_index) (fun tok =>
      Ok (mk (tokens self) (Some tok) token_index))
  else Ok (mk (tokens self) None token_index).

(** [Parser(tokens)] *)
Definition init (tokens : list token) : result t :=
  advance (mk tokens None (-1)).

(** [eat]: with no current token the test is false, and building the
    message subscripts [None], a TypeError. *)
Definition eat (token_type : string) (self : t) : result t :=
  match current_token self with
  | Some tok =>
      if String.eqb tok.1 token_type then advance self
      else Raise (SyntaxError
                    ("Expected " +:+ token_type +:+ ", got " +:+ tok.1))
  | None => Raise TypeError
  end.

(** A parsing method: it may run out of fuel ([None]), raise, or return a
    value and the parser after it. *)
Definition M (A : Type) : Type := option (result (A * t)).

Definition ret {A} (a : A) (self : t) : M A := Some (Ok (a, self)).

Definition bind {A B} (x : M A) (f : A -> t -> M B) : M B :=
  match x with
  | Some (Ok (a, self)) => f a self
  | Some (Raise e) => Some (Raise e)
  | None => None
  end.

Definition lift (x : result t) : M unit :=
  Some (rbind x (fun self => Ok (tt, self))).

Definition is_mul_div (k : string) : bool :=
  String.eqb k "*" || String.eqb k "/".

Definition is_add_sub (k : string) : bool :=
  String.eqb k "+" || String.eqb k "-".

Fixpoint factor (fuel : nat) (self : t) : M node :=
  match fuel with
  | 0 => None
  | S fuel =>
      match current_token self with
      | None => Some (Raise TypeError)
      | Some token =>
          if String.eqb token.1 "NUMBER" then
            bind (lift (eat "NUMBER" self)) (fun _ => ret (number token.2))
          else if String.eqb token.1 "IDENTIFIER" then
            bind (lift (eat "IDENTIFIER" self))
                 (fun _ => ret (identifier token.2))
          else if String.eqb token.1 "STRING" then
            bind (lift (eat "STRING" self)) (fun _ => ret (string_ token.2))
          else if String.eqb token.1 "(" then
            bind (lift (eat "(" self)) (fun _ self =>
            bind (expr fuel self) (fun e self =>
            bind (lift (eat ")" self)) (fun _ => ret e)))
          else ret PyNone self
      end
  end

with term_loop (fuel : nat) (node0 : node) (self : t) : M node :=
  match fuel with
  | 0 => None
  | S fuel =>
      match current_token self with
      | Some tok =>
          if is_mul_div tok.1 then
            let op := if String.eqb tok.1 "*" then "mul" else "div" in
            bind (lift (advance self)) (fun _ self =>
            bind (factor fuel self) (fun rhs self =>
            term_loop fuel (binop op node0 rhs) self))
          else ret node0 self
      | None => ret node0 self
      end
  end

with term (fuel : nat) (self : t) : M node :=
  match fuel with
  | 0 => None
  | S fuel => bind (factor fuel self) (term_loop fuel)
  end

with expr_loop (fuel : nat) (node0 : node) (self : t) : M node :=
  match fuel with
  | 0 => None
  | S fuel =>
      match current_token self with
      | Some tok =>
          if is_add_sub tok.1 then
            let op := if String.eqb tok.1 "+" then "add" else "sub" in
            bind (lift (advance self)) (fun _ self =>
            bind (term fuel self) (fun rhs self =>
            expr_loop fuel (binop op node0 rhs) self))
          else ret node0 self
      | None => ret node0 self
      end
  end

with expr (fuel : nat) (self : t) : M node :=
  match fuel with
  | 0 => None
  | S fuel => bind (term fuel self) (expr_loop fuel)
  end.

(** [Parser(tokens).expr()]: the tree returned, or the exception. *)
Definition parse (fuel : nat) (tokens : list token) : option (result node) :=
  match init tokens with
  | Ok self =>
      match expr fuel self with
      | Some (Ok (n, _)) => Some (Ok n)
      | Some (Raise e) => Some (Raise e)
      | None => None
      end
  | Raise e => Some (Raise e)
  end.

(** More fuel does not change what a parsing method returns. *)
Definition stable {A} (f g : t -> M A) : Prop :=
  forall self r, f self = Some r -> g self = Some r.

End Parser.

(** ** Symbol tables

    The stored values are of any type [V]; [get_symbol] returns [None] for
    a name that is not found. *)

Module OrderedSymbolTable.
Section Ordered.
Context {V : Type}.

(** [self.symbols]: a list of [(name, value)] pairs. *)
Definition t := list (string * V).

Definition init : t := [].

Definition add_symbol (self : t) (name : string) (value : V) : t :=
  self ++ [(name, value)].

Fixpoint get_symbol (self : t) (name : string) : option V :=
  match self with
  | [] => None
  | symbol :: rest =>
      if String.eqb symbol.1 name then Some symbol.2
      else get_symbol rest name
  end.

(** The names stored, in the order of the list. *)
Definition keys (self : t) : list string := self.*1.

(** A sequence of [add_symbol] calls. *)
Definition add_symbols (self : t) (kvs : list (string * V)) : t :=
  foldl (fun self kv => add_symbol self kv.1 kv.2) self kvs.
End Ordered.
End OrderedSymbolTable.

Module UnorderedSymbolTable.
Section Unordered.
Context {V : Type}.

(** [self.symbols]: a dict. *)
Definition init : gmap string V := ∅.

Definition add_symbol (self : gmap string V) (name : string) (value : V)
    : gmap string V :=
  <[name := value]> self.

Definition get_symbol (self : gmap string V) (name : string) : option V :=
  self !! name.

(** The names stored: the keys of the dict. *)
Definition keys (self : gmap string V) : list string :=
  (map_to_list self).*1.

(** A sequence of [add_symbol] calls. *)
Definition add_symbols (self : gmap string V) (kvs : list (string * V))
    : gmap string V :=
  foldl (fun self kv => add_symbol self kv.1 kv.2) self kvs.
End Unordered.
End UnorderedSymbolTable.

Module TreeStructuredSymbolTable.
Section Tree.
Context {V : Type}.

(** A [TreeNode], or [Nil] for the [None] of an empty [root], [left] or
    [right]. *)
Inductive TreeNode :=
| Nil
| Node (name : string) (value : V) (left right : TreeNode).

Definition is_none (node : TreeNode) : bool :=
  match node with
  | Nil => true
  | Node _ _ _ _ => false
  end.

Definition init : TreeNode := Nil.

(** [_add_symbol_recursively]; the source never calls it on [None]. *)
Fixpoint _add_symbol_recursively (node : TreeNode) (name : string)
    (value : V) : TreeNode :=
  match node with
  | Nil => Nil
  | Node node_name node_value node_left node_right =>
      if String.ltb name node_name then
        if negb (is_none node_left)
        then Node node_name node_value
                  (_add_symbol_recursively node_left name value) node_right
        else Node node_name node_value (Node name value Nil Nil) node_right
      else if String.ltb node_name name then
        if negb (is_none node_right)
        then Node node_name node_value node_left
                  (_add_symbol_recursively node_right name value)
        else Node node_name node_value node_left (Node name value Nil Nil)
      else node
  end.

Definition add_symbol (root : TreeNode) (name : string) (value : V)
    : TreeNode :=
  if is_none root then Node name value Nil Nil
  else _add_symbol_recursively root name value.

Fixpoint _get_symbol_recursively (node : TreeNode) (name : string)
    : option V :=
  match node with
  | Nil => None
  | Node node_name node_value node_left node_right =>
      if String.eqb name node_name then Some node_value
      else if String.ltb name node_name
      then _get_symbol_recursively node_left name
      else _get_symbol_recursively node_right name
  end.

Definition get_symbol (root : TreeNode) (name : string) : option V :=
  _get_symbol_recursively root name.

(** The names stored in the tree, from left to right. *)
Fixpoint keys (node : TreeNode) : list string :=
  match node with
  | Nil => []
  | Node node_name _ node_left node_right =>
      keys node_left ++ node_name :: keys node_right
  end.

(** A sequence of [add_symbol] calls. *)
Definition add_symbols (root : TreeNode) (kvs : list (string * V))
    : TreeNode :=
  foldl (fun root kv => add_symbol root kv.1 kv.2) root kvs.

(** Search-tree order: the names on the left of a node are below its
    name, those on the right above. *)
Fixpoint bst (node : TreeNode) : Prop :=
  match node with
  | Nil => True
  | Node n _ l r =>
      bst l /\ bst r
      /\ Forall (fun k => String.ltb k n = true) (keys l)
      /\ Forall (fun k => String.ltb n k = true) (keys r)
  end.

End Tree.
Arguments TreeNode : clear implicits.
End TreeStructuredSymbolTable.

Module HashSymbolTable.
Section Hashed.
Context {V : Type}.

(** Python's [hash] on strings: some function to the integers, fixed
    for the run of the program. *)
Variable hash : string -> Z.

(** A bucket is [None] or a list of [(name, value)] pairs. *)
Record t := mk {
  size : Z;
  table : list (option (list (string * V)))
}.

(** [HashSymbolTable(size)]: [[None] * size] is empty for [size <= 0]. *)
Definition init (size : Z) : t :=
  mk size (replicate (Z.to_nat size) None).

(** [hash(key) % self.size]: the sign of the result is the divisor's. *)
Definition hash_function (self : t) (key : string) : result Z :=
  if (size self =? 0)%Z then Raise ZeroDivisionError
  else Ok (hash key mod size self)%Z.

(** The position of the first pair of the bucket whose name is [name]:
    the [for i, ... in enumerate(...)] loop. *)
Fixpoint find_name (bucket : list (string * V)) (name : string) (i : nat)
    : option nat :=
  match bucket with
  | [] => None
  | (existing_name, _) :: rest =>
      if String.eqb existing_name name then Some i
      else find_name rest name (S i)
  end.

(** [not self.table[index]]: [None] and the empty list are false. *)
Definition falsy (bucket : option (list (string * V))) : bool :=
  match bucket with
  | None | Some [] => true
  | Some (_ :: _) => false
  end.

Definition add_symbol (self : t) (name : string) (value : V) : result t :=
  rbind (hash_function self name) (fun index =>
  rbind (PyList.getitem (table self) index) (fun bucket =>
    if falsy bucket then
      rbind (PyList.setitem (table self) index (Some [(name, value)]))
            (fun table' => Ok (mk (size self) table'))
    else
      let entries := default [] bucket in
      match find_name entries name 0 with
      | Some i =>
          rbind (PyList.setitem (table self) index
                   (Some (<[i := (name, value)]> entries)))
                (fun table' => Ok (mk (size self) table'))
      | None =>
          rbind (PyList.setitem (table self) index
                   (Some (entries ++ [(name, value)])))
                (fun table' => Ok (mk (size self) table'))
      end)).

(** The [for existing_name, value in bucket] loop of [get_symbol]. *)
Fixpoint scan_bucket (bucket : list (string * V)) (name : string)
    : option V :=
  match bucket with
  | [] => None
  | (existing_name, value) :: rest =>
      if String.eqb existing_name name then Some value
      else scan_bucket rest name
  end.

Definition get_symbol (self : t) (name : string) : result (option V) :=
  rbind (hash_function self name) (fun index =>
  rbind (PyList.getitem (table self) index) (fun bucket =>
    if falsy bucket then Ok None
    else Ok (scan_bucket (default [] bucket) name))).

(** The names stored, bucket after bucket. *)
Definition keys (self : t) : list string :=
  concat ((fun bucket => (default [] bucket).*1) <$> table self).

(** A sequence of [add_symbol] calls; it stops at the first that
    raises. *)
Fixpoint add_symbols (self : t) (kvs : list (string * V)) : result t :=
  match kvs with
  | [] => Ok self
  | (name, value) :: rest =>
      rbind (add_symbol self name value) (fun self' =>
        add_symbols self' rest)
  end.

(** *** Notions for the proofs about the hash table *)

(** The bucket a name belongs to. *)
Definition home (self : t) (name : string) : nat :=
  Z.to_nat (hash name mod size self).

Definition bucket_of (self : t) (name : string) : list (string * V) :=
  default [] (default None (table self !! home self name)).

(** What [add_symbol] makes of a bucket: the pair of the name is
    replaced where it is, or added at the end. *)
Fixpoint upsert (bucket : list (string * V)) (name : string) (value : V)
    : list (string * V) :=
  match bucket with
  | [] => [(name, value)]
  | (n, v) :: rest =>
      if String.eqb n name then (name, value) :: rest
      else (n, v) :: upsert rest name value
  end.

(** A table with at least one bucket, and as many as its size. *)
Definition sized (self : t) : Prop :=
  (1 <= size self)%Z /\ length (table self) = Z.to_nat (size self).

(** The invariant of a table: as many buckets as its size, no name
    twice in a bucket, every name in the bucket of its hash. *)
Definition wf (self : t) : Prop :=
  sized self
  /\ forall i bucket, table self !! i = Some (Some bucket) ->
       NoDup bucket.*1 /\ forall k, k ∈ bucket.*1 -> home self k = i.

(** The table after [add_symbol]. *)
Definition added (self : t) (name : string) (value : V) : t :=
  mk (size self)
     (<[home self name :=
          Some (upsert (bucket_of self name) name value)]>
        (table self)).

End Hashed.
Arguments t : clear implicits.
End HashSymbolTable.

(** A hash function to run the tables with: the length of the string. *)
Definition length_hash (s : string) : Z := Z.of_nat (String.length s).


(** ** Characters of a text *)

Module Chars.

(** Every character of the text is in the class. *)
Fixpoint all (p : ascii -> bool) (s : string) : bool :=
  match s with
  | EmptyString => true
  | String c s' => p c && all p s'
  end.

(** The kinds of the tokens [tokenize] returns. *)
Definition kinds : list string :=
  ["IDENTIFIER"; "NUMBER"; "OPERATOR"; "STRING"; "INVALID"].

End Chars.

(** ** Notions for the proofs about the parser *)

Module ParserSpec.
Import Parser.

(** The current token is the one under the cursor, and the cursor is not
    before the first token. *)
Definition consistent (self : t) : Prop :=
  (0 <= token_index self)%Z
  /\ current_token self = tokens self !! Z.to_nat (token_index self).

(** [self'] is a later state of the parser [self]: the same tokens, the
    cursor not moved back. *)
Definition follows (self self' : t) : Prop :=
  tokens self' = tokens self
  /\ (token_index self <= token_index self')%Z
  /\ consistent self'.

(** The tokens from the cursor on. *)
Definition remaining (self : t) : nat :=
  length (tokens self) - Z.to_nat (token_index self).

(** The exceptions the parsing methods raise. *)
Definition raised (e : exn) : Prop :=
  e = TypeError
  \/ exists kind, e = SyntaxError ("Expected ), got " +:+ kind).

(** A method started in [self] returned in a later state, or raised one
    of these exceptions. *)
Definition good {A} (self : t) (r : result (A * t)) : Prop :=
  match r with
  | Ok (_, self') => follows self self'
  | Raise e => raised e
  end.

(** A method that, started in a consistent state, ends in this way. *)
Definition kept {A} (f : t -> M A) : Prop :=
  forall self r, consistent self -> f self = Some r -> good self r.

(** A method that returns, or raises, with the fuel it is given. *)
Definition returns {A} (f : t -> M A) (self : t) : Prop :=
  exists res, f self = Some res.

(** The tree [factor] returns for a token it takes alone. *)
Definition leaf (tok : token) : node :=
  if String.eqb tok.1 "NUMBER" then number tok.2
  else if String.eqb tok.1 "IDENTIFIER" then identifier tok.2
  else if String.eqb tok.1 "STRING" then string_ tok.2
  else PyNone.

(** The parser with its cursor at the position [i]. *)
Definition state_at (tokens : list token) (i : nat) : t :=
  mk tokens (tokens !! i) (Z.of_nat i).

(** The tokens of [a op1 b1 op2 b2 ...]: numbers, between them operator
    tokens whose kind is the operator. *)
Definition chain_tokens (a : string) (rest : list (string * string))
    : list token :=
  ("NUMBER", a) :: flat_map (fun p => [(p.1, p.1); ("NUMBER", p.2)]) rest.

(** The name [term] and [expr] give an operator. *)
Definition op_name (op : string) : string :=
  if String.eqb op "*" then "mul"
  else if String.eqb op "/" then "div"
  else if String.eqb op "+" then "add"
  else "sub".

(** The tree of the chain, nested to the left. *)
Definition chain_tree (a : string) (rest : list (string * string)) : node :=
  foldl (fun acc p => binop (op_name p.1) acc (number p.2)) (number a) rest.

End ParserSpec.

(** ** The tree table under a recursion limit

    Python allows a bounded number of nested calls and raises
    RecursionError beyond it.  The methods of the tree table are run here
    with room for [depth] more nested calls; [None] stands for the
    RecursionError.  A call of [_add_symbol_recursively], of
    [_get_symbol_recursively] (also on an empty child) and of the
    constructor [TreeNode] each take one of them. *)

Module TreeLimited.
Import TreeStructuredSymbolTable.
Section Tree.
Context {V : Type}.

(** [TreeNode(name, value)] *)
Definition new_node (depth : nat) (name : string) (value : V)
    : option (TreeNode V) :=
  match depth with
  | 0 => None
  | S _ => Some (Node name value Nil Nil)
  end.

Fixpoint _add_symbol_recursively (depth : nat) (node : TreeNode V)
    (name : string) (value : V) : option (TreeNode V) :=
  match depth with
  | 0 => None
  | S depth =>
      match node with
      | Nil => Some Nil
      | Node node_name node_value node_left node_right =>
          if String.ltb name node_name then
            if negb (is_none node_left)
            then
              node_left' ← _add_symbol_recursively depth node_left name value;
              Some (Node node_name node_value node_left' node_right)
            else
              leaf ← new_node depth name value;
              Some (Node node_name node_value leaf node_right)
          else if String.ltb node_name name then
            if negb (is_none node_right)
            then
              node_right' ←
                _add_symbol_recursively depth node_right name value;
              Some (Node node_name node_value node_left node_right')
            else
              leaf ← new_node depth name value;
              Some (Node node_name node_value node_left leaf)
          else Some node
      end
  end.

Definition add_symbol (depth : nat) (root : TreeNode V) (name : string)
    (value : V) : option (TreeNode V) :=
  if is_none root then new_node depth name value
  else _add_symbol_recursively depth root name value.

Fixpoint _get_symbol_recursively (depth : nat) (node : TreeNode V)
    (name : string) : option (option V) :=
  match depth with
  | 0 => None
  | S depth =>
      match node with
      | Nil => Some None
      | Node node_name node_value node_left node_right =>
          if String.eqb name node_name then Some (Some node_value)
          else if String.ltb name node_name
          then _get_symbol_recursively depth node_left name
          else _get_symbol_recursively depth node_right name
      end
  end.

Definition get_symbol (depth : nat) (root : TreeNode V) (name : string)
    : option (option V) :=
  _get_symbol_recursively depth root name.

(** A sequence of [add_symbol] calls; it stops at the first
    RecursionError. *)
Fixpoint add_symbols (depth : nat) (root : TreeNode V)
    (kvs : list (string * V)) : option (TreeNode V) :=
  match kvs with
  | [] => Some root
  | (name, value) :: rest =>
      root' ← add_symbol depth root name value;
      add_symbols depth root' rest
  end.

End Tree.
End TreeLimited.

(** ** The parser under a recursion limit

    The methods of the parser run with room for [depth] more nested calls:
    every call of [advance], [eat], [factor], [term] and [expr] takes one,
    and a call beyond the limit is Python's RecursionError, which ends the
    parse.  The [while] loops of [term] and [expr] run in the frame of
    their method. *)

Module ParserLimited.
Import Parser.

Inductive outcome (A : Type) :=
| OutOfFuel
| RecursionError
| Done (r : result (A * t)).
Arguments OutOfFuel {A}.
Arguments RecursionError {A}.
Arguments Done {A} r.

Definition ret {A} (a : A) (self : t) : outcome A := Done (Ok (a, self)).

Definition bind {A B} (x : outcome A) (f : A -> t -> outcome B)
    : outcome B :=
  match x with
  | Done (Ok (a, self)) => f a self
  | Done (Raise e) => Done (Raise e)
  | OutOfFuel => OutOfFuel
  | RecursionError => RecursionError
  end.

Definition advance (depth : nat) (self : t) : outcome unit :=
  match depth with
  | 0 => RecursionError
  | S _ => Done (rbind (Parser.advance self) (fun self' => Ok (tt, self')))
  end.

Definition eat (depth : nat) (token_type : string) (self : t)
    : outcome unit :=
  match depth with
  | 0 => RecursionError
  | S depth =>
      match current_token self with
      | Some tok =>
          if String.eqb tok.1 token_type then advance depth self
          else Done (Raise (SyntaxError
                              ("Expected " +:+ token_type +:+ ", got "
                               +:+ tok.1)))
      | None => Done (Raise TypeError)
      end
  end.

Fixpoint factor (depth fuel : nat) (self : t) : outcome node :=
  match fuel, depth with
  | 0, _ => OutOfFuel
  | S _, 0 => RecursionError
  | S fuel, S depth =>
      match current_token self with
      | None => Done (Raise TypeError)
      | Some token =>
          if String.eqb token.1 "NUMBER" then
            bind (eat depth "NUMBER" self) (fun _ => ret (number token.2))
          else if String.eqb token.1 "IDENTIFIER" then
            bind (eat depth "IDENTIFIER" self)
                 (fun _ => ret (identifier token.2))
          else if String.eqb token.1 "STRING" then
            bind (eat depth "STRING" self) (fun _ => ret (string_ token.2))
          else if String.eqb token.1 "(" then
            bind (eat depth "(" self) (fun _ self =>
            bind (expr depth fuel self) (fun e self =>
            bind (eat depth ")" self) (fun _ => ret e)))
          else ret PyNone self
      end
  end

with term_loop (depth fuel : nat) (node0 : node) (self : t) : outcome node :=
  match fuel with
  | 0 => OutOfFuel
  | S fuel =>
      match current_token self with
      | Some tok =>
          if is_mul_div tok.1 then
            let op := if String.eqb tok.1 "*" then "mul" else "div" in
            bind (advance depth self) (fun _ self =>
            bind (factor depth fuel self) (fun rhs self =>
            term_loop depth fuel (binop op node0 rhs) self))
          else ret node0 self
      | None => ret node0 self
      end
  end

with term (depth fuel : nat) (self : t) : outcome node :=
  match fuel, depth with
  | 0, _ => OutOfFuel
  | S _, 0 => RecursionError
  | S fuel, S depth =>
      bind (factor depth fuel self) (term_loop depth fuel)
  end

with expr_loop (depth fuel : nat) (node0 : node) (self : t) : outcome node :=
  match fuel with
  | 0 => OutOfFuel
  | S fuel =>
      match current_token self with
      | Some tok =>
          if is_add_sub tok.1 then
            let op := if String.eqb tok.1 "+" then "add" else "sub" in
            bind (advance depth self) (fun _ self =>
            bind (term depth fuel self) (fun rhs self =>
            expr_loop depth fuel (binop op node0 rhs) self))
          else ret node0 self
      | None => ret node0 self
      end
  end

with expr (depth fuel : nat) (self : t) : outcome node :=
  match fuel, depth with
  | 0, _ => OutOfFuel
  | S _, 0 => RecursionError
  | S fuel, S depth =>
      bind (term depth fuel self) (expr_loop depth fuel)
  end.

(** [Parser(tokens).expr()] with room for [depth] nested calls below it. *)
Definition parse (depth fuel : nat) (tokens : list token)
    : outcome node :=
  match Parser.init tokens with
  | Ok self => expr depth fuel self
  | Raise e => Done (Raise e)
  end.

(** What the limited run returns, the run without a limit returns. *)
Definition sound {A} (x : outcome A) (y : M A) : Prop :=
  forall r, x = Done r -> y = Some r.

End ParserLimited.

(** * Properties *)

(** ** Strings *)

Module StrFacts.
Import Str.

Lemma take_drop n s : take n s +:+ drop n s = s.
Proof.
  revert s; induction n as [|n IH]; intros [|c s]; try done.
  change (String c (take n s +:+ drop n s) = String c s).
  by rewrite IH.
Qed.

Lemma drop_drop n m s : drop n (drop m s) = drop (m + n) s.
Proof.
  revert s; induction m as [|m IH]; intros s; simpl; [done|].
  destruct s as [|c s]; [by destruct n|]. apply IH.
Qed.

Lemma length_drop n s : String.length (drop n s) = String.length s - n.
Proof.
  revert s; induction n as [|n IH]; intros [|c s]; simpl; auto.
Qed.

Lemma get_drop n s : String.get n s = String.get 0 (drop n s).
Proof.
  revert s; induction n as [|n IH]; intros [|c s]; simpl; auto.
Qed.

Lemma drop_lt n s :
  n < String.length s -> exists c s', drop n s = String c s'.
Proof.
  intros Hlt. pose proof (length_drop n s) as Hlen.
  destruct (drop n s) as [|c s']; simpl in Hlen; [lia|]. eauto.
Qed.

Lemma slice_drop a b s : a <= b -> slice a b s +:+ drop b s = drop a s.
Proof.
  intros Hab. unfold slice.
  replace (drop b s) with (drop (b - a) (drop a s)).
  - apply take_drop.
  - rewrite drop_drop. f_equal. lia.
Qed.

Lemma drop_all s : drop (String.length s) s = EmptyString.
Proof. induction s as [|c s IH]; simpl; done. Qed.

Lemma drop_ge n s : String.length s <= n -> drop n s = EmptyString.
Proof.
  revert s; induction n as [|n IH]; intros [|c s]; simpl; auto; try lia.
  intros. apply IH. lia.
Qed.

Lemma join_cons x l : join (x :: l) = x +:+ join l.
Proof. reflexivity. Qed.

End StrFacts.

(** ** The matcher *)

Module ReFacts.
Import Re.

Lemma match_one_bounded cls k : bounded k -> bounded (match_one cls k).
Proof.
  intros Hk [|c s] n; simpl; [done|].
  destruct (cls c); [|done].
  destruct (k s) as [n'|] eqn:Hks; simpl; [|done].
  intros [= <-]. apply Hk in Hks. lia.
Qed.

Lemma match_star_bounded cls k : bounded k -> bounded (match_star cls k).
Proof.
  intros Hk s. induction s as [|c s IH]; intros n; simpl.
  - apply Hk.
  - destruct (cls c); [|apply (Hk (String c s))].
    destruct (match_star cls k s) as [n'|] eqn:Hs.
    + intros [= <-]. specialize (IH _ eq_refl). lia.
    + apply (Hk (String c s)).
Qed.

Lemma match_regex_bounded r : bounded (match_regex r).
Proof.
  induction r as [|[cls []] r IH]; simpl.
  - intros s n [= <-]. lia.
  - by apply match_one_bounded.
  - by apply match_star_bounded.
  - by apply match_one_bounded, match_star_bounded.
Qed.

Lemma match_one_pos cls k s n : match_one cls k s = Some n -> 0 < n.
Proof.
  destruct s as [|c s]; simpl; [done|].
  destruct (cls c); [|done].
  destruct (k s); simpl; [|done]. intros [= <-]. lia.
Qed.

Lemma match_regex_pos r s n :
  nonempty r -> match_regex r s = Some n -> 0 < n.
Proof.
  destruct r as [|[cls []] r]; simpl; try done;
    intros _; apply match_one_pos.
Qed.

Lemma regex_match_spec r code pos m :
  nonempty r -> pos <= String.length code ->
  regex_match r code pos = Some m ->
  m_start m = pos /\ pos < m_end m <= String.length code
  /\ group0 m = Str.slice pos (m_end m) code.
Proof.
  intros Hne Hpos. unfold regex_match.
  destruct (match_regex r (Str.drop pos code)) as [n|] eqn:Hn; simpl; [|done].
  intros [= <-]; simpl.
  pose proof (match_regex_pos _ _ _ Hne Hn) as Hn0.
  apply match_regex_bounded in Hn. rewrite StrFacts.length_drop in Hn.
  repeat split; lia.
Qed.

End ReFacts.

(** ** The lexer *)

Module LexerFacts.
Import Re ReFacts Lexer.

Lemma patterns_nonempty : Forall (fun p => nonempty p.1) patterns.
Proof. repeat constructor. Qed.

Lemma first_match_spec ps code pos m token_type :
  Forall (fun p => nonempty p.1) ps -> pos <= String.length code ->
  first_match ps code pos = Some (m, token_type) ->
  m_start m = pos /\ pos < m_end m <= String.length code
  /\ group0 m = Str.slice pos (m_end m) code.
Proof.
  intros Hps Hpos. induction Hps as [|[r ty] ps Hr _ IH]; simpl; [done|].
  destruct (regex_match r code pos) as [m'|] eqn:Hm; [|exact IH].
  intros [= -> ->]. by apply (regex_match_spec r).
Qed.

(** The [for] loop stops at the first pattern that matches, and keeps its
    text unless the pattern is the comment's. *)
Lemma scan_patterns_first_match ps code pos tokens :
  scan_patterns ps code pos tokens =
  match first_match ps code pos with
  | Some (m, token_type) =>
      (Some m, if emitted (token_type, group0 m)
               then tokens ++ [(token_type, group0 m)] else tokens)
  | None => (None, tokens)
  end.
Proof.
  induction ps as [|[r ty] ps IH]; simpl; [done|].
  destruct (regex_match r code pos); [|exact IH].
  unfold emitted; simpl. by destruct (negb _).
Qed.

Lemma loop_body_consumed code pos tokens :
  loop_body code pos tokens =
  '(pos', span) ← consumed code pos;
  Some (pos', tokens ++ List.filter emitted [span]).
Proof.
  unfold loop_body, consumed. rewrite scan_patterns_first_match.
  destruct (first_match patterns code pos) as [[m ty]|]; simpl.
  - destruct (emitted (ty, group0 m)); [done|]. by rewrite app_nil_r.
  - destruct (Str.index code pos); done.
Qed.

Lemma tokenize_loop_spans fuel code pos tokens :
  tokenize_loop fuel code pos tokens =
  (fun l => tokens ++ List.filter emitted l) <$> spans_loop fuel code pos.
Proof.
  revert pos tokens. induction fuel as [|fuel IH]; intros pos tokens; simpl.
  - destruct (pos <? String.length code); simpl; [done|].
    by rewrite app_nil_r.
  - destruct (pos <? String.length code); simpl;
      [|by rewrite app_nil_r].
    rewrite loop_body_consumed.
    destruct (consumed code pos) as [[pos' span]|]; simpl; [|done].
    rewrite IH. destruct (spans_loop fuel code pos'); simpl; [|done].
    destruct (emitted span); simpl; by rewrite <- ?app_assoc, ?app_nil_r.
Qed.

(** One iteration at a position inside the text consumes a span that is
    not empty and is the text between the old and the new position. *)
Lemma consumed_spec code pos :
  pos < String.length code ->
  exists pos' token_type text,
    consumed code pos = Some (pos', (token_type, text))
    /\ pos < pos' <= String.length code
    /\ text = Str.slice pos pos' code.
Proof.
  intros Hpos. unfold consumed.
  destruct (first_match patterns code pos) as [[m ty]|] eqn:Hm.
  - apply first_match_spec in Hm as (_ & Hend & Hg);
      [|apply patterns_nonempty|lia].
    exists (m_end m), ty, (group0 m). done.
  - destruct (StrFacts.drop_lt pos code Hpos) as (c & s' & Hd).
    unfold Str.index. rewrite StrFacts.get_drop, Hd. simpl.
    eexists _, _, _. split; [done|]. split; [lia|].
    unfold Str.slice. replace (pos + 1 - pos) with 1 by lia.
    by rewrite Hd.
Qed.

Lemma spans_loop_total fuel code pos :
  String.length code - pos <= fuel ->
  exists l, spans_loop fuel code pos = Some l
            /\ Str.join l.*2 = Str.drop pos code.
Proof.
  revert pos. induction fuel as [|fuel IH]; intros pos Hfuel; simpl.
  - destruct (Nat.ltb_spec pos (String.length code)); [lia|].
    exists []. split; [done|]. simpl. by rewrite StrFacts.drop_ge.
  - destruct (Nat.ltb_spec pos (String.length code)) as [Hlt|Hge].
    + destruct (consumed_spec code pos Hlt)
        as (pos' & ty & text & -> & Hpos' & ->). simpl.
      destruct (IH pos') as (l & -> & Hjoin); [lia|]. simpl.
      eexists. split; [done|].
      rewrite fmap_cons, StrFacts.join_cons, Hjoin.
      apply StrFacts.slice_drop. lia.
    + exists []. split; [done|]. simpl. by rewrite StrFacts.drop_ge.
Qed.

Lemma tokenize_spans code :
  exists l,
    spans code = Some l
    /\ tokenize code = Some (List.filter emitted l)
    /\ Str.join l.*2 = code.
Proof.
  destruct (spans_loop_total (String.length code) code 0)
    as (l & Hl & Hjoin); [lia|].
  exists l. split; [exact Hl|]. split; [|exact Hjoin].
  unfold tokenize. rewrite tokenize_loop_spans. by rewrite Hl.
Qed.

End LexerFacts.

Module LexerTermination.
Import Re Lexer LexerFacts.

Lemma spans_loop_mono fuel fuel' code pos l :
  fuel <= fuel' ->
  spans_loop fuel code pos = Some l -> spans_loop fuel' code pos = Some l.
Proof.
  revert fuel' pos l.
  induction fuel as [|fuel IH]; intros fuel' pos l Hle; simpl.
  - destruct fuel'; simpl; [done|].
    destruct (pos <? String.length code); done.
  - destruct fuel' as [|fuel']; [lia|]. simpl.
    destruct (pos <? String.length code); [|done].
    destruct (consumed code pos) as [[pos' span]|]; simpl; [|done].
    destruct (spans_loop fuel code pos') as [l'|] eqn:Hl'; simpl; [|done].
    intros [= <-]. rewrite (IH fuel' pos' l'); [done|lia|done].
Qed.

Lemma tokenize_loop_enough_fuel fuel code :
  String.length code <= fuel ->
  tokenize_loop fuel code 0 [] = tokenize code.
Proof.
  intros Hfuel. unfold tokenize. rewrite !tokenize_loop_spans.
  destruct (spans_loop_total (String.length code) code 0) as (l & Hl & _);
    [lia|].
  by rewrite (spans_loop_mono _ _ _ _ _ Hfuel Hl), Hl.
Qed.

Lemma loop_body_step code pos tokens :
  pos < String.length code ->
  (exists m tokens',
      scan_patterns patterns code pos tokens = (Some m, tokens')
      /\ m_start m = pos /\ pos < m_end m <= String.length code
      /\ group0 m = Str.slice pos (m_end m) code
      /\ loop_body code pos tokens = Some (m_end m, tokens'))
  \/ (exists c,
      scan_patterns patterns code pos tokens = (None, tokens)
      /\ String.get pos code = Some c
      /\ loop_body code pos tokens =
         Some (pos + 1, tokens ++ [("INVALID", String c EmptyString)])).
Proof.
  intros Hpos. unfold loop_body. rewrite scan_patterns_first_match.
  destruct (first_match patterns code pos) as [[m ty]|] eqn:Hm.
  - left. apply first_match_spec in Hm as (Hs & Hend & Hg);
      [|apply patterns_nonempty|lia].
    eexists _, _. done.
  - right. destruct (StrFacts.drop_lt pos code Hpos) as (c & s' & Hd).
    exists c. unfold Str.index.
    rewrite StrFacts.get_drop, Hd. done.
Qed.

(** The rule that wins is the first of the list that matches at the
    position; when none wins, no rule of the list matches there. *)
Lemma first_match_split ps code pos :
  match first_match ps code pos with
  | Some (m, token_type) =>
      exists before r after,
        ps = before ++ (r, token_type) :: after
        /\ Forall (fun p => regex_match p.1 code pos = None) before
        /\ regex_match r code pos = Some m
  | None => Forall (fun p => regex_match p.1 code pos = None) ps
  end.
Proof.
  induction ps as [|[r ty] ps IH]; simpl; [constructor|].
  destruct (regex_match r code pos) as [m|] eqn:Hm.
  - exists [], r, ps. split; [done|]. split; [constructor|done].
  - destruct (first_match ps code pos) as [[m ty']|].
    + destruct IH as (before & r' & after & -> & Hnone & Hr').
      exists ((r, ty) :: before), r', after.
      split; [done|]. split; [by constructor|done].
    + by constructor.
Qed.

(** One iteration, by the rules of [patterns]. *)
Lemma loop_body_rules code pos tokens :
  pos < String.length code ->
  (exists before r token_type after m,
      patterns = before ++ (r, token_type) :: after
      /\ Forall (fun p => regex_match p.1 code pos = None) before
      /\ regex_match r code pos = Some m
      /\ m_start m = pos /\ pos < m_end m <= String.length code
      /\ group0 m = Str.slice pos (m_end m) code
      /\ scan_patterns patterns code pos tokens
         = (Some m,
            if String.eqb token_type "COMMENT" then tokens
            else tokens ++ [(token_type, group0 m)])
      /\ loop_body code pos tokens
         = Some (m_end m,
                 if String.eqb token_type "COMMENT" then tokens
                 else tokens ++ [(token_type, group0 m)]))
  \/ (Forall (fun p => regex_match p.1 code pos = None) patterns
      /\ exists c,
          scan_patterns patterns code pos tokens = (None, tokens)
          /\ String.get pos code = Some c
          /\ loop_body code pos tokens =
             Some (pos + 1, tokens ++ [("INVALID", String c EmptyString)])).
Proof.
  intros Hpos. unfold loop_body. rewrite scan_patterns_first_match.
  pose proof (first_match_split patterns code pos) as Hsplit.
  destruct (first_match patterns code pos) as [[m ty]|] eqn:Hm.
  - left. destruct Hsplit as (before & r & after & Hps & Hnone & Hr).
    apply first_match_spec in Hm as (Hs & Hend & Hg);
      [|apply patterns_nonempty|lia].
    exists before, r, ty, after, m. unfold emitted. simpl.
    destruct (String.eqb ty "COMMENT"); simpl; done.
  - right. split; [done|].
    destruct (StrFacts.drop_lt pos code Hpos) as (c & s' & Hd).
    exists c. unfold Str.index.
    rewrite StrFacts.get_drop, Hd. done.
Qed.

End LexerTermination.

(** C3, as the code has it: no rule matches a space, so each space of
    ["x = 1 # comment"] is an INVALID token and the scan yields six tokens;
    the comment is consumed as one span and yields no token.  Written
    without spaces, the text yields the three tokens alone. *)
Theorem tokenize_comment_suppressed :
  Lexer.tokenize "x = 1 # comment"
  = Some [("IDENTIFIER", "x"); ("INVALID", " "); ("OPERATOR", "=");
          ("INVALID", " "); ("NUMBER", "1"); ("INVALID", " ")]
  /\ Lexer.spans "x = 1 # comment"
     = Some [("IDENTIFIER", "x"); ("INVALID", " "); ("OPERATOR", "=");
             ("INVALID", " "); ("NUMBER", "1"); ("INVALID", " ");
             ("COMMENT", "# comment")]
  /\ Lexer.tokenize "x=1#comment"
     = Some [("IDENTIFIER", "x"); ("OPERATOR", "="); ("NUMBER", "1")].
Proof. repeat split; vm_compute; reflexivity. Qed.

(** C3 as stated fails: the tokens of ["x = 1 # comment"] are not the three
    tokens IDENTIFIER x, OPERATOR =, NUMBER 1. *)
Lemma tokenize_comment_not_three_tokens :
  Lexer.tokenize "x = 1 # comment"
  <> Some [("IDENTIFIER", "x"); ("OPERATOR", "="); ("NUMBER", "1")].
Proof. vm_compute. discriminate. Qed.

(** C4: the texts of the spans the scan consumes, the emitted tokens and
    the comments, concatenated in scan order, are the input text; the
    tokens returned are these spans without the comments. *)
Theorem tokenize_roundtrip (code : string) :
  exists l,
    Lexer.spans code = Some l
    /\ Lexer.tokenize code = Some (List.filter Lexer.emitted l)
    /\ Str.join l.*2 = code.
Proof. apply LexerFacts.tokenize_spans. Qed.

(** C9: tokenize returns on every text (with fuel the length of the text,
    and the same tokens with any more); an iteration at a position inside
    the text either takes the first rule of [patterns] that matches at the
    position, whose match is not empty, ends at the end of that match and
    keeps its text as a token unless the rule is the comment's, or, when no
    rule of [patterns] matches at the position, appends the INVALID token
    of the character at the position and moves one character on; ["@"]
    yields the one token INVALID ["@"]. *)
Theorem tokenize_terminates :
  (forall code, exists tokens,
      Lexer.tokenize code = Some tokens
      /\ forall fuel, String.length code <= fuel ->
           Lexer.tokenize_loop fuel code 0 [] = Some tokens)
  /\ (forall code pos tokens, pos < String.length code ->
      (exists before r token_type after m,
          Lexer.patterns = before ++ (r, token_type) :: after
          /\ Forall (fun p => Re.regex_match p.1 code pos = None) before
          /\ Re.regex_match r code pos = Some m
          /\ Re.m_start m = pos
          /\ pos < Re.m_end m <= String.length code
          /\ Re.group0 m = Str.slice pos (Re.m_end m) code
          /\ Lexer.scan_patterns Lexer.patterns code pos tokens
             = (Some m,
                if String.eqb token_type "COMMENT" then tokens
                else tokens ++ [(token_type, Re.group0 m)])
          /\ Lexer.loop_body code pos tokens
             = Some (Re.m_end m,
                     if String.eqb token_type "COMMENT" then tokens
                     else tokens ++ [(token_type, Re.group0 m)]))
      \/ (Forall (fun p => Re.regex_match p.1 code pos = None) Lexer.patterns
          /\ exists c,
              Lexer.scan_patterns Lexer.patterns code pos tokens
              = (None, tokens)
              /\ String.get pos code = Some c
              /\ Lexer.loop_body code pos tokens =
                 Some (pos + 1,
                       tokens ++ [("INVALID", String c EmptyString)])))
  /\ Lexer.tokenize "@" = Some [("INVALID", "@")].
Proof.
  split; [|split].
  - intros code.
    destruct (LexerFacts.tokenize_spans code) as (l & _ & Htok & _).
    eexists. split; [exact Htok|].
    intros fuel Hfuel. rewrite <- Htok.
    by apply LexerTermination.tokenize_loop_enough_fuel.
  - apply LexerTermination.loop_body_rules.
  - reflexivity.
Qed.

(** ** The parser *)

Module ParserFacts.
Import Parser.

Local Arguments bind : simpl never.
Local Arguments lift : simpl never.

Lemma bind_mono {A B} (x x' : M A) (k k' : A -> t -> M B) r :
  (forall r0, x = Some r0 -> x' = Some r0) ->
  (forall a self r1, k a self = Some r1 -> k' a self = Some r1) ->
  bind x k = Some r -> bind x' k' = Some r.
Proof.
  intros Hx Hk. unfold bind. destruct x as [[[a self]|e]|]; [..|done];
    rewrite (Hx _ eq_refl); auto.
Qed.

Lemma fuel_mono fuel :
  forall fuel', fuel <= fuel' ->
    stable (factor fuel) (factor fuel')
    /\ (forall n, stable (term_loop fuel n) (term_loop fuel' n))
    /\ stable (term fuel) (term fuel')
    /\ (forall n, stable (expr_loop fuel n) (expr_loop fuel' n))
    /\ stable (expr fuel) (expr fuel').
Proof.
  induction fuel as [|fuel IH]; intros fuel' Hle.
  { repeat split; intros; intros ? ?; done. }
  destruct fuel' as [|fuel']; [lia|].
  destruct (IH fuel') as (Hfactor & Hterm_loop & Hterm & Hexpr_loop & Hexpr);
    [lia|].
  repeat split.
  - intros self r; simpl.
    destruct (current_token self) as [token|]; [|done].
    repeat (case_match; [done|]).
    case_match; [|done].
    apply bind_mono; [done|]. intros _ self1 r1.
    apply bind_mono; [apply Hexpr|done].
  - intros n self r; simpl.
    destruct (current_token self) as [tok|]; [|done].
    case_match; [|done].
    apply bind_mono; [done|]. intros _ self1 r1.
    apply bind_mono; [apply Hfactor|]. intros rhs self2 r2.
    apply Hterm_loop.
  - intros self r; simpl.
    apply bind_mono; [apply Hfactor|apply Hterm_loop].
  - intros n self r; simpl.
    destruct (current_token self) as [tok|]; [|done].
    case_match; [|done].
    apply bind_mono; [done|]. intros _ self1 r1.
    apply bind_mono; [apply Hterm|]. intros rhs self2 r2.
    apply Hexpr_loop.
  - intros self r; simpl.
    apply bind_mono; [apply Hterm|apply Hexpr_loop].
Qed.

Lemma parse_mono fuel fuel' tokens r :
  fuel <= fuel' ->
  parse fuel tokens = Some r -> parse fuel' tokens = Some r.
Proof.
  intros Hle. unfold parse. destruct (init tokens) as [self|e]; [|done].
  destruct (fuel_mono fuel fuel' Hle) as (_ & _ & _ & _ & Hexpr).
  destruct (expr fuel self) as [r0|] eqn:He; [|done].
  by rewrite (Hexpr _ _ He).
Qed.

(** What [expr] returns does not depend on the fuel that suffices. *)
Lemma parse_deterministic fuel fuel' tokens r r' :
  parse fuel tokens = Some r -> parse fuel' tokens = Some r' -> r = r'.
Proof.
  intros H H'. destruct (Nat.le_ge_cases fuel fuel') as [Hle|Hle].
  - apply (parse_mono _ _ _ _ Hle) in H. congruence.
  - apply (parse_mono _ _ _ _ Hle) in H'. congruence.
Qed.

(** A token of the wrong kind: the SyntaxError names both kinds. *)
Lemma eat_wrong_kind token_type self tok :
  current_token self = Some tok -> tok.1 <> token_type ->
  eat token_type self =
  Raise (SyntaxError ("Expected " +:+ token_type +:+ ", got " +:+ tok.1)).
Proof.
  intros Hcur Hne. unfold eat. rewrite Hcur.
  destruct (String.eqb_spec tok.1 token_type); done.
Qed.

End ParserFacts.

(** C1, as the code has it: the parser tells an operator by the kind of
    its token, so on tokens whose kind is the operator itself, NUMBER a,
    [+], NUMBER b, [*], NUMBER c, [expr] returns
    [binop add (number a) (binop mul (number b) (number c))]:
    multiplication binds tighter than addition. *)
Theorem expr_precedence (fuel : nat) (a b c : string) :
  Parser.parse (6 + fuel)
    [("NUMBER", a); ("+", "+"); ("NUMBER", b); ("*", "*"); ("NUMBER", c)]
  = Some (Ok (binop "add" (number a) (binop "mul" (number b) (number c)))).
Proof. reflexivity. Qed.

(** C1 as stated fails: on the tokens the lexer produces from
    ["2 + 3 * 4"], [expr] returns [number 2] and, whatever the fuel, never
    the tree of the sum. *)
Lemma expr_of_lexed_sum_is_first_number :
  let tokens :=
    [("NUMBER", "2"); ("INVALID", " "); ("OPERATOR", "+"); ("INVALID", " ");
     ("NUMBER", "3"); ("INVALID", " "); ("OPERATOR", "*"); ("INVALID", " ");
     ("NUMBER", "4")] in
  Lexer.tokenize "2 + 3 * 4" = Some tokens
  /\ Parser.parse 3 tokens = Some (Ok (number "2"))
  /\ ~ exists fuel,
         Parser.parse fuel tokens
         = Some (Ok (binop "add" (number "2")
                       (binop "mul" (number "3") (number "4")))).
Proof.
  split; [reflexivity|]. split; [reflexivity|].
  intros [fuel Hfuel].
  assert (Ok (binop "add" (number "2")
                (binop "mul" (number "3") (number "4")))
          = Ok (number "2")) as Heq; [|discriminate Heq].
  eapply ParserFacts.parse_deterministic; [exact Hfuel|].
  instantiate (1 := 3). reflexivity.
Qed.

(** The same holds for the text without spaces: an operator token of the
    lexer has the kind OPERATOR, which the loops of [term] and [expr] do
    not look for. *)
Example expr_of_lexed_sum_without_spaces :
  Lexer.tokenize "2+3*4"
  = Some [("NUMBER", "2"); ("OPERATOR", "+"); ("NUMBER", "3");
          ("OPERATOR", "*"); ("NUMBER", "4")]
  /\ Parser.parse 3 [("NUMBER", "2"); ("OPERATOR", "+"); ("NUMBER", "3");
                     ("OPERATOR", "*"); ("NUMBER", "4")]
     = Some (Ok (number "2")).
Proof. split; reflexivity. Qed.

(** C2, what the code does: with no current token [eat] raises a
    TypeError, not a SyntaxError, whatever kind is expected: at the end of
    any token list, right after [Parser([])], and from [expr] on
    [( 1] with its closing parenthesis missing. *)
Theorem eat_missing_token_raises_TypeError :
  (forall tokens token_index token_type,
      Parser.eat token_type (Parser.mk tokens None token_index)
      = Raise TypeError)
  /\ (forall token_type,
      rbind (Parser.init []) (Parser.eat token_type) = Raise TypeError)
  /\ Parser.parse 6 [("(", "("); ("NUMBER", "1")] = Some (Raise TypeError).
Proof. repeat split. Qed.

(** ** The order of Python strings *)

Module StrOrder.
Import OrderedTypeEx.

Lemma compare_refl s : String.compare s s = Eq.
Proof. by apply String_as_OT.cmp_eq. Qed.

Lemma ltb_irrefl s : String.ltb s s = false.
Proof. unfold String.ltb. by rewrite compare_refl. Qed.

Lemma ltb_lt a b : String.ltb a b = true <-> String_as_OT.lt a b.
Proof.
  rewrite <- String_as_OT.cmp_lt. unfold String.ltb, String_as_OT.cmp.
  destruct (String.compare a b); split; done.
Qed.

Lemma ltb_trans a b c :
  String.ltb a b = true -> String.ltb b c = true -> String.ltb a c = true.
Proof. rewrite !ltb_lt. apply String_as_OT.lt_trans. Qed.

Lemma ltb_neq a b : String.ltb a b = true -> a <> b.
Proof. intros Hlt ->. by rewrite ltb_irrefl in Hlt. Qed.

(** Of two different strings one is below the other. *)
Lemma ltb_total a b :
  String.eqb a b = false -> String.ltb a b = false -> String.ltb b a = true.
Proof.
  intros Hne%String.eqb_neq. unfold String.ltb.
  rewrite (String.compare_antisym b a).
  destruct (String.compare a b) eqn:Hc; simpl; try done.
  by apply String.compare_eq_iff in Hc.
Qed.

End StrOrder.

(** ** The ordered table *)

Module OrderedFacts.
Import OrderedSymbolTable.

Lemma get_symbol_app {V} (l l' : list (string * V)) name :
  get_symbol (l ++ l') name =
  match get_symbol l name with
  | Some v => Some v
  | None => get_symbol l' name
  end.
Proof.
  induction l as [|[n v] l IH]; simpl; [done|].
  by destruct (String.eqb n name).
Qed.

End OrderedFacts.


(** ** The tree table *)

Module TreeFacts.
Import TreeStructuredSymbolTable StrOrder.

Section Tree.
Context {V : Type}.
Implicit Types (node root : TreeNode V) (name : string) (value : V).

(** A name that the descent finds: the insertion changes nothing. *)
Lemma add_found node name value v0 :
  _get_symbol_recursively node name = Some v0 ->
  _add_symbol_recursively node name value = node.
Proof.
  induction node as [|n v l IHl r IHr]; [done|].
  cbn [_get_symbol_recursively _add_symbol_recursively].
  destruct (String.eqb_spec name n) as [->|Hne].
  { by rewrite ltb_irrefl. }
  destruct (String.ltb name n) eqn:Hlt; intros Hget.
  - destruct l; [done|]. cbn [is_none negb]. by rewrite IHl.
  - destruct (String.ltb n name); [|done].
    destruct r; [done|]. cbn [is_none negb]. by rewrite IHr.
Qed.

(** A name that the descent does not find is stored where the descent
    ended. *)
Lemma add_not_found node name value :
  is_none node = false ->
  _get_symbol_recursively node name = None ->
  _get_symbol_recursively (_add_symbol_recursively node name value) name
  = Some value.
Proof.
  induction node as [|n v l IHl r IHr]; [done|]. intros _.
  cbn [_get_symbol_recursively _add_symbol_recursively].
  destruct (String.eqb name n) eqn:Heq; [done|].
  destruct (String.ltb name n) eqn:Hlt; intros Hget.
  - destruct l as [|ln lv ll lr]; cbn [is_none negb].
    + simpl. by rewrite Heq, Hlt, String.eqb_refl.
    + cbn [_get_symbol_recursively]. rewrite Heq, Hlt. by apply IHl.
  - rewrite (ltb_total _ _ Heq Hlt).
    destruct r as [|rn rv rl rr]; cbn [is_none negb].
    + simpl. by rewrite Heq, Hlt, String.eqb_refl.
    + cbn [_get_symbol_recursively]. rewrite Heq, Hlt. by apply IHr.
Qed.

Lemma get_add_symbol root name value :
  get_symbol (add_symbol root name value) name =
  match get_symbol root name with
  | Some v0 => Some v0
  | None => Some value
  end.
Proof.
  unfold get_symbol, add_symbol.
  destruct (is_none root) eqn:Hroot.
  - destruct root; [|done]. simpl. by rewrite String.eqb_refl.
  - destruct (_get_symbol_recursively root name) as [v0|] eqn:Hget.
    + by rewrite (add_found _ _ _ _ Hget), Hget.
    + by apply add_not_found.
Qed.

Lemma add_symbol_found root name value v0 :
  get_symbol root name = Some v0 -> add_symbol root name value = root.
Proof.
  unfold get_symbol, add_symbol. intros Hget.
  destruct root; [done|]. by apply (add_found _ _ _ v0).
Qed.

Lemma keys_add (P : string -> Prop) node name value :
  P name -> Forall P (keys node) ->
  Forall P (keys (_add_symbol_recursively node name value)).
Proof.
  intros HP. induction node as [|n v l IHl r IHr]; [done|].
  cbn [keys _add_symbol_recursively].
  rewrite Forall_app, Forall_cons. intros (Hl & Hn & Hr).
  destruct (String.ltb name n); [|destruct (String.ltb n name)].
  - destruct l; cbn [is_none negb keys];
      rewrite ?Forall_app, ?Forall_cons, ?Forall_nil; intuition auto.
  - destruct r; cbn [is_none negb keys];
      rewrite ?Forall_app, ?Forall_cons, ?Forall_nil; intuition auto.
    simpl. by constructor.
  - cbn [keys]. rewrite Forall_app, Forall_cons. auto.
Qed.

Lemma bst_add node name value :
  bst node -> bst (_add_symbol_recursively node name value).
Proof.
  induction node as [|n v l IHl r IHr]; [done|].
  cbn [bst _add_symbol_recursively]. intros (Hl & Hr & Hlk & Hrk).
  destruct (String.ltb name n) eqn:Hlt;
    [|destruct (String.ltb n name) eqn:Hgt].
  - destruct l; cbn [is_none negb bst].
    + repeat split; auto. simpl. by constructor.
    + repeat split; auto. by apply keys_add.
  - destruct r; cbn [is_none negb bst].
    + repeat split; auto. simpl. by constructor.
    + repeat split; auto. by apply keys_add.
  - done.
Qed.

Lemma bst_add_symbol root name value :
  bst root -> bst (add_symbol root name value).
Proof.
  unfold add_symbol. destruct root; simpl is_none; cbv iota.
  - intros _. simpl. auto.
  - apply bst_add.
Qed.

Lemma bst_add_symbols root kvs :
  bst root -> bst (add_symbols root kvs).
Proof.
  revert root. induction kvs as [|[k v] kvs IH]; intros root Hroot;
    [done|].
  apply IH. by apply bst_add_symbol.
Qed.

(** In a search tree no name is stored twice. *)
Lemma bst_NoDup node : bst node -> NoDup (keys node).
Proof.
  induction node as [|n v l IHl r IHr]; simpl; [constructor|].
  intros (Hl & Hr & Hlk & Hrk).
  apply NoDup_app. split; [auto|]. split.
  - intros k Hk [->|Hkr]%elem_of_cons.
    + rewrite Forall_forall in Hlk. apply Hlk in Hk.
      by rewrite ltb_irrefl in Hk.
    + rewrite Forall_forall in Hlk, Hrk.
      apply Hlk in Hk. apply Hrk in Hkr.
      pose proof (ltb_trans _ _ _ Hk Hkr) as Hkk.
      by rewrite ltb_irrefl in Hkk.
  - apply NoDup_cons. split; [|auto].
    intros Hn. rewrite Forall_forall in Hrk. apply Hrk in Hn.
    by rewrite ltb_irrefl in Hn.
Qed.

End Tree.
End TreeFacts.

(** C8: in the tree table, after [add_symbol x 1] and [add_symbol x 2]
    the lookup of [x] returns 1; an [add_symbol] of a name the tree holds
    leaves the tree as it is, its value not overwritten and no node
    added. *)
Theorem tree_equal_key_insert_ignored :
  TreeStructuredSymbolTable.get_symbol
    (TreeStructuredSymbolTable.add_symbol
       (TreeStructuredSymbolTable.add_symbol
          TreeStructuredSymbolTable.init "x" 1) "x" 2)
    "x" = Some 1
  /\ (forall (V : Type) (root : TreeStructuredSymbolTable.TreeNode V)
        name value1 value2,
        TreeStructuredSymbolTable.add_symbol
          (TreeStructuredSymbolTable.add_symbol root name value1) name value2
        = TreeStructuredSymbolTable.add_symbol root name value1)
  /\ (forall (V : Type) (root : TreeStructuredSymbolTable.TreeNode V)
        name value,
        TreeStructuredSymbolTable.get_symbol
          (TreeStructuredSymbolTable.add_symbol root name value) name
        = match TreeStructuredSymbolTable.get_symbol root name with
          | Some first => Some first
          | None => Some value
          end).
Proof.
  split; [reflexivity|]. split.
  - intros V root name value1 value2.
    pose proof (TreeFacts.get_add_symbol root name value1) as Hget.
    destruct (TreeStructuredSymbolTable.get_symbol root name) as [v0|];
      eapply TreeFacts.add_symbol_found; exact Hget.
  - intros V root name value. apply TreeFacts.get_add_symbol.
Qed.

(** ** Python list indexing *)

Module PyListFacts.
Import PyList.

Lemma position_ok {A} (l : list A) (i : Z) :
  (0 <= i < Z.of_nat (length l))%Z -> position l i = Ok (Z.to_nat i).
Proof.
  intros Hi. unfold position.
  destruct (Z.leb_spec 0 i); [|lia].
  destruct (Z.ltb_spec i (Z.of_nat (length l))); [done|lia].
Qed.

Lemma getitem_ok {A} (l : list A) (i : Z) :
  (0 <= i < Z.of_nat (length l))%Z ->
  exists x, l !! Z.to_nat i = Some x /\ getitem l i = Ok x.
Proof.
  intros Hi. unfold getitem. rewrite position_ok by done. simpl.
  destruct (lookup_lt_is_Some_2 l (Z.to_nat i)) as [x Hx]; [lia|].
  exists x. by rewrite Hx.
Qed.

Lemma setitem_ok {A} (l : list A) (i : Z) (x : A) :
  (0 <= i < Z.of_nat (length l))%Z ->
  setitem l i x = Ok (<[Z.to_nat i := x]> l).
Proof. intros Hi. unfold setitem. by rewrite position_ok. Qed.

End PyListFacts.

(** ** The hash table *)

Module HashFacts.
Import HashSymbolTable.

Section Hashed.
Context {V : Type} (hash : string -> Z).
Implicit Types (self : t V) (name : string) (value : V).
Implicit Types (bucket : list (string * V)).

Lemma find_name_shift bucket name i :
  find_name bucket name (S i) = S <$> find_name bucket name i.
Proof.
  revert i. induction bucket as [|[n v] rest IH]; intros i; simpl; [done|].
  destruct (String.eqb n name); [done|]. apply IH.
Qed.

Lemma find_name_upsert bucket name value :
  match find_name bucket name 0 with
  | Some i => <[i := (name, value)]> bucket
  | None => bucket ++ [(name, value)]
  end = upsert bucket name value.
Proof.
  induction bucket as [|[n v] rest IH]; simpl; [done|].
  destruct (String.eqb n name); [done|].
  rewrite find_name_shift.
  destruct (find_name rest name 0); simpl; by rewrite <- IH.
Qed.

Lemma scan_upsert_eq bucket name value :
  scan_bucket (upsert bucket name value) name = Some value.
Proof.
  induction bucket as [|[n v] rest IH]; simpl.
  - by rewrite String.eqb_refl.
  - destruct (String.eqb n name) eqn:Hn; simpl.
    + by rewrite String.eqb_refl.
    + by rewrite Hn.
Qed.

Lemma scan_upsert_ne bucket name name' value :
  name' <> name ->
  scan_bucket (upsert bucket name value) name' = scan_bucket bucket name'.
Proof.
  intros Hne. induction bucket as [|[n v] rest IH]; simpl.
  - by destruct (String.eqb_spec name name').
  - destruct (String.eqb_spec n name) as [->|Hn]; simpl.
    + by destruct (String.eqb_spec name name').
    + by rewrite IH.
Qed.

Lemma keys_upsert_present bucket name value v0 :
  scan_bucket bucket name = Some v0 ->
  (upsert bucket name value).*1 = bucket.*1.
Proof.
  induction bucket as [|[n v] rest IH]; simpl; [done|].
  destruct (String.eqb_spec n name) as [->|Hn]; simpl; [done|].
  intros Hscan. f_equal. by apply IH.
Qed.

Lemma elem_of_keys_upsert bucket name value k :
  k ∈ (upsert bucket name value).*1 -> k = name \/ k ∈ bucket.*1.
Proof.
  induction bucket as [|[n v] rest IH]; simpl.
  - intros ->%list_elem_of_singleton. by left.
  - destruct (String.eqb_spec n name) as [->|Hn]; simpl.
    + intros [->|Hk]%elem_of_cons; [by left|].
      right. by apply elem_of_cons; right.
    + intros [->|Hk]%elem_of_cons.
      * right. by apply elem_of_cons; left.
      * destruct (IH Hk) as [->|Hin]; [by left|].
        right. by apply elem_of_cons; right.
Qed.

Lemma NoDup_upsert bucket name value :
  NoDup bucket.*1 -> NoDup (upsert bucket name value).*1.
Proof.
  induction bucket as [|[n v] rest IH]; simpl.
  - intros _. apply NoDup_singleton.
  - intros [Hn Hrest]%NoDup_cons.
    destruct (String.eqb_spec n name) as [->|Hne]; simpl.
    + by apply NoDup_cons.
    + apply NoDup_cons. split; [|auto].
      intros [->|Hin]%elem_of_keys_upsert; done.
Qed.

Lemma hash_function_ok self key :
  (1 <= size self)%Z ->
  hash_function hash self key = Ok (hash key mod size self)%Z
  /\ (0 <= hash key mod size self < size self)%Z.
Proof.
  intros Hsize. unfold hash_function.
  destruct (Z.eqb_spec (size self) 0); [lia|].
  split; [done|]. apply Z.mod_pos_bound. lia.
Qed.

Lemma home_lt self name :
  sized self -> home hash self name < length (table self).
Proof.
  intros [Hsize Hlen]. unfold home. rewrite Hlen.
  destruct (hash_function_ok self name Hsize) as [_ Hi]. lia.
Qed.

Lemma add_symbol_eq self name value :
  sized self ->
  add_symbol hash self name value =
  Ok (mk (size self)
        (<[home hash self name :=
             Some (upsert (bucket_of hash self name) name value)]>
           (table self))).
Proof.
  intros Hs. pose proof Hs as [Hsize Hlen].
  destruct (hash_function_ok self name Hsize) as [Hh Hi].
  assert (0 <= hash name mod size self
          < Z.of_nat (length (table self)))%Z as Hi' by lia.
  unfold add_symbol. rewrite Hh. simpl.
  destruct (PyListFacts.getitem_ok _ _ Hi') as (b & Hb & ->). simpl.
  unfold bucket_of, home. rewrite Hb.
  destruct b as [[|p rest]|]; cbn [falsy from_option id];
    try (by rewrite PyListFacts.setitem_ok by done).
  rewrite <- (find_name_upsert (p :: rest) name value).
  destruct (find_name (p :: rest) name 0);
    by rewrite PyListFacts.setitem_ok by done.
Qed.

Lemma get_symbol_eq self name :
  sized self ->
  get_symbol hash self name = Ok (scan_bucket (bucket_of hash self name) name).
Proof.
  intros [Hsize Hlen].
  destruct (hash_function_ok self name Hsize) as [Hh Hi].
  assert (0 <= hash name mod size self
          < Z.of_nat (length (table self)))%Z as Hi' by lia.
  unfold get_symbol. rewrite Hh. simpl.
  destruct (PyListFacts.getitem_ok _ _ Hi') as (b & Hb & ->). simpl.
  unfold bucket_of, home. rewrite Hb. simpl.
  by destruct b as [[|p rest]|].
Qed.

End Hashed.
End HashFacts.

Module HashInv.
Import HashSymbolTable HashFacts.

(** Lists of names, each list with the position its names belong to:
    together they hold no name twice. *)
Lemma NoDup_concat_home (g : string -> nat) (bs : list (list string)) off :
  (forall i ks, bs !! i = Some ks ->
     NoDup ks /\ forall k, k ∈ ks -> g k = off + i) ->
  NoDup (concat bs).
Proof.
  revert off. induction bs as [|b bs IH]; intros off Hbs; simpl.
  - constructor.
  - destruct (Hbs 0 b eq_refl) as [Hb Hhome].
    apply NoDup_app. split; [done|]. split.
    + intros k Hk Hin.
      apply list_elem_of_In, in_concat in Hin as (ks & Hks & Hin).
      rewrite <- list_elem_of_In in Hks. rewrite <- list_elem_of_In in Hin.
      apply list_elem_of_lookup in Hks as [j Hj].
      destruct (Hbs (S j) ks Hj) as [_ Hhome'].
      apply Hhome in Hk. apply Hhome' in Hin. lia.
    + apply (IH (S off)). intros i ks Hi.
      destruct (Hbs (S i) ks Hi) as [Hnd Hh]. split; [done|].
      intros k Hk. rewrite (Hh k Hk). lia.
Qed.

Section Hashed.
Context {V : Type} (hash : string -> Z).
Implicit Types (self : t V) (name : string) (value : V).

Lemma init_wf (n : Z) : (1 <= n)%Z -> wf hash (init n : t V).
Proof.
  intros Hn. split.
  - split; [done|]. simpl. by rewrite length_replicate.
  - intros i bucket [? _]%lookup_replicate. done.
Qed.

Lemma added_wf self name value :
  wf hash self -> wf hash (added hash self name value).
Proof.
  intros [Hs Hb]. pose proof (home_lt hash self name Hs) as Hlt.
  split.
  - destruct Hs as [Hsize Hlen]. split; [done|].
    simpl. by rewrite length_insert.
  - intros i bucket. simpl.
    destruct (decide (i = home hash self name)) as [->|Hne].
    + rewrite list_lookup_insert_eq by done. intros [= <-].
      assert (NoDup (bucket_of hash self name).*1
              /\ forall k, k ∈ (bucket_of hash self name).*1 ->
                   home hash self k = home hash self name)
        as [Hnd Hhome].
      { unfold bucket_of.
        destruct (table self !! home hash self name) as [[b|]|] eqn:Hb0;
          simpl; [by apply Hb|split; [constructor|]..];
          by intros k ?%elem_of_nil. }
      split; [by apply NoDup_upsert|].
      intros k [->|Hk]%elem_of_keys_upsert; [done|]. by apply Hhome.
    + rewrite list_lookup_insert_ne by done. apply Hb.
Qed.

Lemma wf_NoDup self : wf hash self -> NoDup (keys self).
Proof.
  intros [_ Hb]. unfold keys.
  apply (NoDup_concat_home (home hash self) _ 0).
  intros i ks. rewrite list_lookup_fmap.
  destruct (table self !! i) as [[b|]|] eqn:Hi; simpl; [|by intros [= <-];
    split; [constructor|intros k ?%elem_of_nil]|done].
  intros [= <-]. by apply Hb.
Qed.

Lemma get_added_eq self name value :
  wf hash self ->
  get_symbol hash (added hash self name value) name = Ok (Some value).
Proof.
  intros Hwf. pose proof (added_wf self name value Hwf) as [Hs' _].
  destruct Hwf as [Hs _]. rewrite get_symbol_eq by done.
  unfold bucket_of, added; simpl.
  change (Z.to_nat (hash name mod size self)) with (home hash self name).
  unfold home at 1. simpl. fold (home hash self name).
  rewrite list_lookup_insert_eq by (by apply home_lt). simpl.
  by rewrite scan_upsert_eq.
Qed.

(** A name that is stored: [add_symbol] keeps the stored names as they
    are. *)
Lemma keys_added_present self name value v0 :
  wf hash self ->
  get_symbol hash self name = Ok (Some v0) ->
  keys (added hash self name value) = keys self.
Proof.
  intros [Hs _]. rewrite get_symbol_eq by done. intros [= Hscan].
  unfold keys, added; simpl. rewrite list_fmap_insert. simpl.
  rewrite (keys_upsert_present _ _ _ _ Hscan).
  rewrite list_insert_id; [done|].
  rewrite list_lookup_fmap. unfold bucket_of.
  destruct (lookup_lt_is_Some_2 (table self) (home hash self name))
    as [b Hb]; [by apply home_lt|].
  by rewrite Hb.
Qed.

Lemma add_symbols_wf self kvs :
  wf hash self ->
  exists self',
    add_symbols hash self kvs = Ok self'
    /\ wf hash self' /\ size self' = size self.
Proof.
  revert self. induction kvs as [|[k v] kvs IH]; intros self Hwf; simpl.
  - by exists self.
  - rewrite add_symbol_eq by apply Hwf. simpl.
    destruct (IH (added hash self k v)) as (self' & Hadd & Hwf' & Hsize);
      [by apply added_wf|].
    by exists self'.
Qed.

End Hashed.
End HashInv.

(** ** The dict table *)

Module UnorderedFacts.
Import UnorderedSymbolTable.

Lemma keys_NoDup {V} (self : gmap string V) : NoDup (keys self).
Proof. apply NoDup_fst_map_to_list. Qed.

Lemma keys_insert_absent {V} (self : gmap string V) name value :
  self !! name = None ->
  Permutation (keys (<[name := value]> self)) (name :: keys self).
Proof.
  intros Hnone. unfold keys.
  by rewrite map_to_list_insert by done.
Qed.

(** A name that is stored: [add_symbol] keeps the stored names. *)
Lemma keys_add_present {V} (self : gmap string V) name value v0 :
  self !! name = Some v0 ->
  Permutation (keys (add_symbol self name value)) (keys self).
Proof.
  intros Hsome. unfold add_symbol.
  rewrite <- (insert_delete_eq self name value).
  rewrite <- (insert_id self name v0 Hsome) at 2.
  rewrite <- (insert_delete_eq self name v0).
  rewrite !keys_insert_absent by apply lookup_delete_eq. done.
Qed.

End UnorderedFacts.

(** C7: after [add_symbol x 1] and [add_symbol x 2] the lookup of [x]
    returns 2, in the dict table and, for any hash function, in the hash
    table with at least one bucket; so it is for any name and values, in
    any dict, and in the hash table after any earlier [add_symbol]s. *)
Theorem unordered_hashed_last_write_wins (hash : string -> Z) (size : Z) :
  (1 <= size)%Z ->
  UnorderedSymbolTable.get_symbol
    (UnorderedSymbolTable.add_symbol
       (UnorderedSymbolTable.add_symbol UnorderedSymbolTable.init "x" 1)
       "x" 2) "x" = Some 2
  /\ rbind (rbind (HashSymbolTable.add_symbol hash
                     (HashSymbolTable.init size) "x" 1)
                  (fun self => HashSymbolTable.add_symbol hash self "x" 2))
           (fun self => HashSymbolTable.get_symbol hash self "x")
     = Ok (Some 2)
  /\ (forall (V : Type) (self : gmap string V) name value1 value2,
        UnorderedSymbolTable.get_symbol
          (UnorderedSymbolTable.add_symbol
             (UnorderedSymbolTable.add_symbol self name value1)
             name value2) name = Some value2)
  /\ (forall (V : Type) (kvs : list (string * V)) name value1 value2,
        exists self,
          HashSymbolTable.add_symbols hash (HashSymbolTable.init size) kvs
          = Ok self
          /\ rbind (rbind (HashSymbolTable.add_symbol hash self name value1)
                      (fun self =>
                         HashSymbolTable.add_symbol hash self name value2))
                   (fun self => HashSymbolTable.get_symbol hash self name)
             = Ok (Some value2)).
Proof.
  intros Hsize.
  assert (forall (V : Type) (self : HashSymbolTable.t V) name value1 value2,
    HashSymbolTable.wf hash self ->
    rbind (rbind (HashSymbolTable.add_symbol hash self name value1)
             (fun self => HashSymbolTable.add_symbol hash self name value2))
          (fun self => HashSymbolTable.get_symbol hash self name)
    = Ok (Some value2)) as Hlast.
  { intros V self name value1 value2 Hwf.
    rewrite HashFacts.add_symbol_eq by apply Hwf. simpl.
    pose proof (HashInv.added_wf hash self name value1 Hwf) as Hwf1.
    fold (HashSymbolTable.added hash self name value1).
    rewrite (HashFacts.add_symbol_eq hash
               (HashSymbolTable.added hash self name value1))
      by apply Hwf1.
    exact (HashInv.get_added_eq hash _ name value2 Hwf1). }
  split; [|split; [|split]].
  - unfold UnorderedSymbolTable.get_symbol, UnorderedSymbolTable.add_symbol.
    apply lookup_insert_eq.
  - apply Hlast. by apply HashInv.init_wf.
  - intros V self name value1 value2.
    unfold UnorderedSymbolTable.get_symbol, UnorderedSymbolTable.add_symbol.
    apply lookup_insert_eq.
  - intros V kvs name value1 value2.
    destruct (HashInv.add_symbols_wf hash (HashSymbolTable.init size) kvs)
      as (self & Hself & Hwf & _); [by apply HashInv.init_wf|].
    exists self. split; [done|]. by apply Hlast.
Qed.

(** C7 at the length hash and ten buckets. *)
Lemma unordered_hashed_last_write_wins_witness :
  (1 <= 10)%Z
  /\ UnorderedSymbolTable.get_symbol
       (UnorderedSymbolTable.add_symbol
          (UnorderedSymbolTable.add_symbol UnorderedSymbolTable.init "x" 1)
          "x" 2) "x" = Some 2
  /\ rbind (rbind (HashSymbolTable.add_symbol length_hash
                     (HashSymbolTable.init 10) "x" 1)
                  (fun self =>
                     HashSymbolTable.add_symbol length_hash self "x" 2))
           (fun self => HashSymbolTable.get_symbol length_hash self "x")
     = Ok (Some 2).
Proof.
  split; [lia|].
  destruct (unordered_hashed_last_write_wins length_hash 10 ltac:(lia))
    as (Hdict & Hhash & _).
  exact (conj Hdict Hhash).
Defined.

(** C10: with at least one bucket, after any sequence of [add_symbol]
    calls on a new table, [hash_function] returns an index from 0 up to
    the size, and [add_symbol] and [get_symbol] return without raising;
    in a table of size 0 every [add_symbol] and every [get_symbol] raises
    ZeroDivisionError. *)
Theorem hash_table_needs_a_bucket (hash : string -> Z) :
  (forall (V : Type) (size : Z) (kvs : list (string * V)),
      (1 <= size)%Z ->
      exists self,
        HashSymbolTable.add_symbols hash (HashSymbolTable.init size) kvs
        = Ok self
        /\ (forall key, exists index,
              HashSymbolTable.hash_function hash self key = Ok index
              /\ (0 <= index < size)%Z)
        /\ (forall name value, exists self',
              HashSymbolTable.add_symbol hash self name value = Ok self')
        /\ (forall name, exists found,
              HashSymbolTable.get_symbol hash self name = Ok found))
  /\ (forall (V : Type) name (value : V),
        HashSymbolTable.add_symbol hash (HashSymbolTable.init 0) name value
        = Raise ZeroDivisionError
        /\ HashSymbolTable.get_symbol hash
             (HashSymbolTable.init 0 : HashSymbolTable.t V) name
           = Raise ZeroDivisionError).
Proof.
  split.
  - intros V size kvs Hsize.
    destruct (HashInv.add_symbols_wf hash (HashSymbolTable.init size) kvs)
      as (self & Hself & Hwf & Hsz); [by apply HashInv.init_wf|].
    simpl in Hsz. exists self. split; [done|]. split; [|split].
    + intros key. eexists. rewrite <- Hsz.
      apply HashFacts.hash_function_ok. lia.
    + intros name value. eexists. apply HashFacts.add_symbol_eq, Hwf.
    + intros name. eexists. apply HashFacts.get_symbol_eq, Hwf.
  - intros V name value. split; reflexivity.
Qed.

(** C10 at the length hash, ten buckets and three [add_symbol] calls. *)
Lemma hash_table_needs_a_bucket_witness :
  (1 <= 10)%Z
  /\ exists self,
       HashSymbolTable.add_symbols length_hash (HashSymbolTable.init 10)
         [("w", 4); ("x", 1); ("w", 5)] = Ok self
       /\ (forall key, exists index,
             HashSymbolTable.hash_function length_hash self key = Ok index
             /\ (0 <= index < 10)%Z)
       /\ (forall name value, exists self',
             HashSymbolTable.add_symbol length_hash self name value
             = Ok self')
       /\ (forall name, exists found,
             HashSymbolTable.get_symbol length_hash self name = Ok found).
Proof.
  split; [lia|].
  apply (proj1 (hash_table_needs_a_bucket length_hash) nat 10%Z
           [("w", 4); ("x", 1); ("w", 5)]).
  lia.
Defined.

(** C5, as the code has it: after any sequence of [add_symbol] calls the
    dict table, the hash table with at least one bucket and the tree table
    hold no name twice; [add_symbol] of a name that is stored replaces its
    value in the dict and in the hash table and adds no entry, and in the
    tree leaves the table as it is. *)
Theorem upsert_tables_keep_keys_unique {V : Type} (hash : string -> Z)
    (size : Z) (kvs : list (string * V)) :
  (1 <= size)%Z ->
  (let self := UnorderedSymbolTable.add_symbols UnorderedSymbolTable.init kvs in
   NoDup (UnorderedSymbolTable.keys self)
   /\ forall name value v0,
        UnorderedSymbolTable.get_symbol self name = Some v0 ->
        UnorderedSymbolTable.get_symbol
          (UnorderedSymbolTable.add_symbol self name value) name = Some value
        /\ Permutation
             (UnorderedSymbolTable.keys
                (UnorderedSymbolTable.add_symbol self name value))
             (UnorderedSymbolTable.keys self))
  /\ (exists self,
        HashSymbolTable.add_symbols hash (HashSymbolTable.init size) kvs
        = Ok self
        /\ NoDup (HashSymbolTable.keys self)
        /\ forall name value v0,
             HashSymbolTable.get_symbol hash self name = Ok (Some v0) ->
             exists self',
               HashSymbolTable.add_symbol hash self name value = Ok self'
               /\ HashSymbolTable.get_symbol hash self' name = Ok (Some value)
               /\ HashSymbolTable.keys self' = HashSymbolTable.keys self)
  /\ (let root :=
        TreeStructuredSymbolTable.add_symbols
          TreeStructuredSymbolTable.init kvs in
      NoDup (TreeStructuredSymbolTable.keys root)
      /\ forall name value v0,
           TreeStructuredSymbolTable.get_symbol root name = Some v0 ->
           TreeStructuredSymbolTable.add_symbol root name value = root).
Proof.
  intros Hsize. split; [|split].
  - split; [apply UnorderedFacts.keys_NoDup|].
    intros name value v0 Hget. split.
    + apply lookup_insert_eq.
    + by apply (UnorderedFacts.keys_add_present _ _ _ v0).
  - destruct (HashInv.add_symbols_wf hash (HashSymbolTable.init size) kvs)
      as (self & Hself & Hwf & _); [by apply HashInv.init_wf|].
    exists self. split; [done|]. split; [by apply (HashInv.wf_NoDup hash)|].
    intros name value v0 Hget.
    exists (HashSymbolTable.added hash self name value).
    split; [apply HashFacts.add_symbol_eq, Hwf|]. split.
    + by apply HashInv.get_added_eq.
    + by apply (HashInv.keys_added_present hash _ _ _ v0).
  - split.
    + apply TreeFacts.bst_NoDup, TreeFacts.bst_add_symbols. exact I.
    + intros name value v0. apply TreeFacts.add_symbol_found.
Qed.

(** C5 at the length hash, ten buckets and three [add_symbol] calls, the
    last one of a name that is stored. *)
Lemma upsert_tables_keep_keys_unique_witness :
  (1 <= 10)%Z
  /\ exists self,
       HashSymbolTable.add_symbols length_hash (HashSymbolTable.init 10)
         [("x", 1); ("yy", 2); ("x", 3)] = Ok self
       /\ NoDup (HashSymbolTable.keys self)
       /\ forall name value v0,
            HashSymbolTable.get_symbol length_hash self name = Ok (Some v0) ->
            exists self',
              HashSymbolTable.add_symbol length_hash self name value
              = Ok self'
              /\ HashSymbolTable.get_symbol length_hash self' name
                 = Ok (Some value)
              /\ HashSymbolTable.keys self' = HashSymbolTable.keys self.
Proof.
  split; [lia|].
  apply (upsert_tables_keep_keys_unique length_hash 10
           [("x", 1); ("yy", 2); ("x", 3)]).
  lia.
Defined.

(** C5 as stated fails: after [add_symbol x 1] and [add_symbol x 2] the
    ordered table stores the name [x] twice, and the tree table still
    holds the value 1 for [x]. *)
Lemma ordered_and_tree_do_not_upsert :
  OrderedSymbolTable.keys
    (OrderedSymbolTable.add_symbols OrderedSymbolTable.init
       [("x", 1); ("x", 2)]) = ["x"; "x"]
  /\ ~ NoDup (OrderedSymbolTable.keys
                (OrderedSymbolTable.add_symbols OrderedSymbolTable.init
                   [("x", 1); ("x", 2)]))
  /\ TreeStructuredSymbolTable.get_symbol
       (TreeStructuredSymbolTable.add_symbols TreeStructuredSymbolTable.init
          [("x", 1); ("x", 2)]) "x" = Some 1.
Proof.
  split; [reflexivity|]. split; [|reflexivity].
  intros Hnd. change (NoDup ["x"; "x"]) in Hnd.
  apply NoDup_cons in Hnd as [Hx _]. apply Hx. by left.
Qed.

(** C9 at the first iteration on the text ["@"]. *)
Lemma tokenize_terminates_witness :
  0 < String.length "@"
  /\ ((exists before r token_type after m,
         Lexer.patterns = before ++ (r, token_type) :: after
         /\ Forall (fun p => Re.regex_match p.1 "@" 0 = None) before
         /\ Re.regex_match r "@" 0 = Some m
         /\ Re.m_start m = 0
         /\ 0 < Re.m_end m <= String.length "@"
         /\ Re.group0 m = Str.slice 0 (Re.m_end m) "@"
         /\ Lexer.scan_patterns Lexer.patterns "@" 0 []
            = (Some m,
               if String.eqb token_type "COMMENT" then []
               else [] ++ [(token_type, Re.group0 m)])
         /\ Lexer.loop_body "@" 0 []
            = Some (Re.m_end m,
                    if String.eqb token_type "COMMENT" then []
                    else [] ++ [(token_type, Re.group0 m)]))
      \/ (Forall (fun p => Re.regex_match p.1 "@" 0 = None) Lexer.patterns
          /\ exists c,
              Lexer.scan_patterns Lexer.patterns "@" 0 [] = (None, [])
              /\ String.get 0 "@" = Some c
              /\ Lexer.loop_body "@" 0 [] =
                 Some (0 + 1, [] ++ [("INVALID", String c EmptyString)]))).
Proof.
  split; [simpl; lia|].
  apply (proj1 (proj2 tokenize_terminates) "@" 0 []). simpl; lia.
Defined.

(** * Further properties *)

(** ** The tokens of the lexer *)

Module LexerMore.
Import Re ReFacts Lexer LexerFacts.

Lemma length_take n s :
  String.length (Str.take n s) = Nat.min n (String.length s).
Proof.
  revert s; induction n as [|n IH]; intros [|c s]; simpl; auto.
Qed.

Lemma length_slice a b s :
  a <= b <= String.length s -> String.length (Str.slice a b s) = b - a.
Proof.
  intros Hab. unfold Str.slice. rewrite length_take, StrFacts.length_drop. lia.
Qed.

Lemma take_all s : Str.take (String.length s) s = s.
Proof. induction s as [|c s IH]; simpl; [done|]. by rewrite IH. Qed.

Lemma length_append s1 s2 :
  String.length (s1 +:+ s2) = String.length s1 + String.length s2.
Proof. induction s1 as [|c s1 IH]; simpl; [done|]. by rewrite IH. Qed.

Lemma spans_loop_Forall (P : token -> Prop) code :
  (forall pos pos' span,
      pos < String.length code -> consumed code pos = Some (pos', span) ->
      P span) ->
  forall fuel pos l, spans_loop fuel code pos = Some l -> Forall P l.
Proof.
  intros HP. induction fuel as [|fuel IH]; intros pos l; simpl.
  - destruct (pos <? String.length code); [done|].
    intros [= <-]. constructor.
  - destruct (Nat.ltb_spec pos (String.length code)) as [Hlt|];
      [|by intros [= <-]; constructor].
    destruct (consumed code pos) as [[pos' span]|] eqn:Hc; simpl; [|done].
    destruct (spans_loop fuel code pos') as [l'|] eqn:Hl; simpl; [|done].
    intros [= <-]. constructor; eauto.
Qed.

(** What holds of every span that is kept holds of every token. *)
Lemma tokenize_Forall (P : token -> Prop) code :
  (forall pos pos' span,
      pos < String.length code -> consumed code pos = Some (pos', span) ->
      emitted span = true -> P span) ->
  exists tokens, tokenize code = Some tokens /\ Forall P tokens.
Proof.
  intros HP. destruct (tokenize_spans code) as (l & Hl & Htok & _).
  exists (List.filter emitted l). split; [done|].
  apply (spans_loop_Forall (fun span => emitted span = true -> P span))
    in Hl; [|by eauto].
  rewrite Forall_forall in Hl. apply Forall_forall.
  intros span [Hin Hem]%list_elem_of_In%filter_In.
  apply Hl; [by apply list_elem_of_In|done].
Qed.

Lemma first_match_In ps code pos m token_type :
  first_match ps code pos = Some (m, token_type) ->
  exists r, In (r, token_type) ps /\ regex_match r code pos = Some m.
Proof.
  induction ps as [|[r ty] ps IH]; simpl; [done|].
  destruct (regex_match r code pos) as [m'|] eqn:Hm.
  - intros [= -> ->]. exists r. auto.
  - intros (r' & Hin & Hr')%IH. exists r'. auto.
Qed.

(** The two ways an iteration consumes a span. *)
Lemma consumed_cases code pos pos' token_type text :
  consumed code pos = Some (pos', (token_type, text)) ->
  (exists r m, In (r, token_type) patterns
      /\ regex_match r code pos = Some m
      /\ pos' = m_end m /\ text = group0 m)
  \/ (token_type = "INVALID" /\ pos' = pos + 1
      /\ Str.index code pos = Some text).
Proof.
  unfold consumed.
  destruct (first_match patterns code pos) as [[m ty]|] eqn:Hm.
  - intros [= <- <- <-]. left.
    apply first_match_In in Hm as (r & Hin & Hr). eauto 10.
  - destruct (Str.index code pos) as [c|] eqn:Hc; simpl; [|done].
    intros [= <- <- <-]. by right.
Qed.

Lemma regex_match_op code pos m :
  regex_match [(op_char, One)] code pos = Some m -> m_end m = pos + 1.
Proof.
  unfold regex_match. simpl.
  destruct (Str.drop pos code) as [|c s]; simpl; [done|].
  destruct (op_char c); simpl; [|done]. by intros [= <-].
Qed.

Lemma regex_match_first r code pos m :
  nonempty r -> regex_match r code pos = Some m ->
  exists c, String.get pos code = Some c
            /\ match r with (cls, _) :: _ => cls c = true | [] => False end.
Proof.
  intros Hne. unfold regex_match. rewrite StrFacts.get_drop.
  destruct (match_regex r (Str.drop pos code)) as [n|] eqn:Hn; [|done].
  intros _. destruct r as [|[cls q] r]; [done|].
  destruct (Str.drop pos code) as [|c s]; destruct q; simpl in *; try done;
    exists c; (split; [done|]); by destruct (cls c).
Qed.

End LexerMore.

Module LexerKinds.
Import Re ReFacts Lexer LexerFacts LexerMore.

Lemma patterns_In r token_type :
  In (r, token_type) patterns ->
  nonempty r
  /\ (token_type = "COMMENT" \/ In token_type Chars.kinds)
  /\ (token_type = "OPERATOR" -> r = [(op_char, One)])
  /\ (token_type = "COMMENT" -> r = [(hash_char, One); (dot, Star)])
  /\ token_type <> "INVALID".
Proof.
  unfold patterns. simpl.
  intros [H|[H|[H|[H|[H|[]]]]]]; injection H as <- <-;
    (split; [exact I|]); (split; [tauto|]); repeat split; done.
Qed.

Lemma all_get p s pos c :
  Chars.all p s = true -> String.get pos s = Some c -> p c = true.
Proof.
  revert pos. induction s as [|c' s IH]; intros pos; simpl; [done|].
  intros [Hc Hs]%andb_prop. destruct pos as [|pos].
  - by intros [= <-].
  - by apply IH.
Qed.

Lemma length_join_filter (l : list token) :
  String.length (Str.join (List.filter emitted l).*2)
  <= String.length (Str.join l.*2).
Proof.
  induction l as [|span l IH]; [done|].
  cbn [List.filter]. rewrite fmap_cons, StrFacts.join_cons, length_append.
  destruct (emitted span); [|lia].
  rewrite fmap_cons, StrFacts.join_cons, length_append. lia.
Qed.

Lemma filter_all {A} (f : A -> bool) (l : list A) :
  Forall (fun x => f x = true) l -> List.filter f l = l.
Proof.
  induction 1 as [|x l Hx _ IH]; simpl; [done|]. by rewrite Hx, IH.
Qed.

Lemma tokenize_In_kinds code :
  exists tokens,
    tokenize code = Some tokens
    /\ Forall (fun t : token => In t.1 Chars.kinds /\ t.1 <> "COMMENT") tokens.
Proof.
  apply tokenize_Forall.
  intros pos pos' [ty text] Hpos Hc Hem.
  assert (ty <> "COMMENT") as Hne.
  { intros ->. by vm_compute in Hem. }
  split; [|done]. simpl.
  apply consumed_cases in Hc as [(r & m & Hin & _)|(-> & _)].
  - apply patterns_In in Hin as (_ & [->|Hk] & _); done.
  - simpl. tauto.
Qed.

End LexerKinds.

(** X1: whatever the text, every token [tokenize] returns has one of the
    kinds IDENTIFIER, NUMBER, OPERATOR, STRING, INVALID; no COMMENT token
    is returned. *)
Theorem tokenize_kinds (code : string) :
  exists tokens,
    Lexer.tokenize code = Some tokens
    /\ Forall (fun t : token => In t.1 Chars.kinds /\ t.1 <> "COMMENT") tokens.
Proof. apply LexerKinds.tokenize_In_kinds. Qed.

(** X2: the text of every token is at least one character long, that of an
    OPERATOR or INVALID token exactly one, and the texts of all tokens
    together are no longer than the input. *)
Theorem tokenize_token_texts (code : string) :
  exists tokens,
    Lexer.tokenize code = Some tokens
    /\ Forall (fun t : token =>
                 1 <= String.length t.2
                 /\ (t.1 = "OPERATOR" \/ t.1 = "INVALID" ->
                     String.length t.2 = 1)) tokens
    /\ String.length (Str.join tokens.*2) <= String.length code.
Proof.
  destruct (LexerFacts.tokenize_spans code) as (l & Hl & Htok & Hjoin).
  destruct (LexerMore.tokenize_Forall
    (fun t : token =>
       1 <= String.length t.2
       /\ (t.1 = "OPERATOR" \/ t.1 = "INVALID" -> String.length t.2 = 1))
    code) as (tokens & Htok' & Hall).
  { intros pos pos' [ty text] Hpos Hc _. simpl.
    apply LexerMore.consumed_cases in Hc
      as [(r & m & Hin & Hm & -> & ->)|(-> & -> & Hidx)].
    - apply LexerKinds.patterns_In in Hin as (Hne & _ & Hop & _ & Hinv).
      pose proof (ReFacts.regex_match_spec r code pos m Hne ltac:(lia) Hm)
        as (_ & Hend & ->).
      rewrite LexerMore.length_slice by lia. split; [lia|].
      intros [-> | ->]; [|done].
      rewrite (Hop eq_refl) in Hm.
      apply LexerMore.regex_match_op in Hm. lia.
    - unfold Str.index in Hidx.
      destruct (String.get pos code); simpl in Hidx; [|done].
      injection Hidx as <-. simpl. split; [lia|done]. }
  exists tokens. split; [done|]. split; [done|].
  assert (tokens = List.filter Lexer.emitted l) as -> by congruence.
  rewrite <- Hjoin. apply LexerKinds.length_join_filter.
Qed.

(** X3: a text in which [#] does not occur is tokenized without loss: the
    texts of its tokens, concatenated, are the text. *)
Theorem tokenize_lossless_without_comment (code : string) :
  Chars.all (fun c => negb (Re.hash_char c)) code = true ->
  exists tokens,
    Lexer.tokenize code = Some tokens /\ Str.join tokens.*2 = code.
Proof.
  intros Hnohash.
  destruct (LexerFacts.tokenize_spans code) as (l & Hl & Htok & Hjoin).
  exists l. split; [|done]. rewrite Htok. f_equal.
  apply LexerKinds.filter_all.
  eapply (LexerMore.spans_loop_Forall
            (fun span => Lexer.emitted span = true) code); [|exact Hl].
  intros pos pos' [ty text] Hpos Hc. unfold Lexer.emitted. simpl.
  destruct (String.eqb_spec ty "COMMENT") as [->|]; [|done].
  apply LexerMore.consumed_cases in Hc as [(r & m & Hin & Hm & _)|(? & _)];
    [|done].
  apply LexerKinds.patterns_In in Hin as (Hne & _ & _ & Hcom & _).
  rewrite (Hcom eq_refl) in Hm, Hne.
  apply LexerMore.regex_match_first in Hm as (c & Hget & Hc); [|done].
  apply (LexerKinds.all_get _ _ _ _ Hnohash) in Hget.
  by rewrite Hc in Hget.
Qed.

(** X3 at the text ["x = (y1 + 25) / z"]. *)
Lemma tokenize_lossless_without_comment_witness :
  Chars.all (fun c => negb (Re.hash_char c)) "x = (y1 + 25) / z" = true
  /\ exists tokens,
       Lexer.tokenize "x = (y1 + 25) / z" = Some tokens
       /\ Str.join tokens.*2 = "x = (y1 + 25) / z".
Proof.
  split; [reflexivity|].
  apply (tokenize_lossless_without_comment "x = (y1 + 25) / z").
  reflexivity.
Defined.

Module LexerRuns.
Import Re Lexer LexerMore.

(** A starred class takes a text whose characters are all in the class. *)
Lemma match_star_all cls k s :
  Chars.all cls s = true -> k EmptyString = Some 0 ->
  match_star cls k s = Some (String.length s).
Proof.
  intros Hall Hk. induction s as [|c s IH]; simpl in *; [done|].
  apply andb_prop in Hall as [-> Hs]. by rewrite IH.
Qed.

(** A first iteration that consumes the whole text ends the scan. *)
Lemma tokenize_whole code tokens :
  0 < String.length code ->
  loop_body code 0 [] = Some (String.length code, tokens) ->
  tokenize code = Some tokens.
Proof.
  intros Hlen Hbody. unfold tokenize.
  destruct (String.length code) as [|n] eqn:Hn; [lia|].
  cbn [tokenize_loop]. rewrite Hn. change (0 <? S n) with true. cbv iota.
  rewrite Hbody. simpl. rewrite <- Hn.
  destruct n; cbn [tokenize_loop]; by rewrite Nat.ltb_irrefl.
Qed.

Lemma digit_not_ident_start c : digit c = true -> ident_start c = false.
Proof.
  destruct c as [[] [] [] [] [] [] [] []]; vm_compute; done.
Qed.

Lemma regex_match_whole r code :
  match_regex r code = Some (String.length code) ->
  regex_match r code 0 =
  Some {| m_start := 0; m_end := String.length code; group0 := code |}.
Proof.
  intros Hm. unfold regex_match, Str.slice. cbn [Str.drop]. rewrite Hm.
  cbn [mbind option_bind].
  replace (0 + String.length code - 0) with (String.length code) by lia.
  by rewrite take_all.
Qed.

End LexerRuns.

(** X4: a text that begins with a letter or an underscore and goes on with
    letters, digits and underscores is one IDENTIFIER token, the whole
    text. *)
Theorem tokenize_identifier_run (c : ascii) (s : string) :
  Re.ident_start c = true -> Chars.all Re.ident_char s = true ->
  Lexer.tokenize (String c s) = Some [("IDENTIFIER", String c s)].
Proof.
  intros Hc Hs. apply LexerRuns.tokenize_whole; [simpl; lia|].
  unfold Lexer.loop_body, Lexer.patterns. cbn [Lexer.scan_patterns].
  rewrite (LexerRuns.regex_match_whole _ (String c s)); [done|].
  cbn [Re.match_regex Re.match_one]. rewrite Hc.
  by rewrite LexerRuns.match_star_all.
Qed.

(** X4 at the text ["abc123"]. *)
Lemma tokenize_identifier_run_witness :
  Re.ident_start "a" = true /\ Chars.all Re.ident_char "bc123" = true
  /\ Lexer.tokenize "abc123" = Some [("IDENTIFIER", "abc123")].
Proof.
  split; [reflexivity|]. split; [reflexivity|].
  apply (tokenize_identifier_run "a" "bc123"); reflexivity.
Defined.

(** X5: a text of digits, at least one, is one NUMBER token, the whole
    text. *)
Theorem tokenize_number_run (c : ascii) (s : string) :
  Chars.all Re.digit (String c s) = true ->
  Lexer.tokenize (String c s) = Some [("NUMBER", String c s)].
Proof.
  intros [Hc Hs]%andb_prop. apply LexerRuns.tokenize_whole; [simpl; lia|].
  unfold Lexer.loop_body, Lexer.patterns. cbn [Lexer.scan_patterns].
  replace (Re.regex_match [(Re.ident_start, Re.One); (Re.ident_char, Re.Star)]
             (String c s) 0) with (@None Re.Match).
  2:{ unfold Re.regex_match. cbn [Str.drop Re.match_regex Re.match_one].
      by rewrite (LexerRuns.digit_not_ident_start c Hc). }
  rewrite (LexerRuns.regex_match_whole _ (String c s)); [done|].
  cbn [Re.match_regex Re.match_one]. rewrite Hc.
  by rewrite LexerRuns.match_star_all.
Qed.

(** X5 at the text ["2024"]. *)
Lemma tokenize_number_run_witness :
  Chars.all Re.digit "2024" = true
  /\ Lexer.tokenize "2024" = Some [("NUMBER", "2024")].
Proof.
  split; [reflexivity|]. apply (tokenize_number_run "2" "024"). reflexivity.
Defined.

(** X6: a text that begins with [#] and has no newline is one comment: its
    scan returns no token. *)
Theorem tokenize_comment_line (s : string) :
  Chars.all Re.dot s = true ->
  Lexer.tokenize (String "#" s) = Some [].
Proof.
  intros Hs. apply LexerRuns.tokenize_whole; [simpl; lia|].
  unfold Lexer.loop_body, Lexer.patterns. cbn [Lexer.scan_patterns].
  replace (Re.regex_match [(Re.ident_start, Re.One); (Re.ident_char, Re.Star)]
             (String "#" s) 0) with (@None Re.Match) by reflexivity.
  replace (Re.regex_match [(Re.digit, Re.Plus)] (String "#" s) 0)
    with (@None Re.Match) by reflexivity.
  replace (Re.regex_match [(Re.op_char, Re.One)] (String "#" s) 0)
    with (@None Re.Match) by reflexivity.
  replace (Re.regex_match
             [(Re.quote_char, Re.One); (Re.not_quote, Re.Star);
              (Re.quote_char, Re.One)] (String "#" s) 0)
    with (@None Re.Match) by reflexivity.
  rewrite (LexerRuns.regex_match_whole _ (String "#" s)); [done|].
  cbn [Re.match_regex Re.match_one].
  change (Re.hash_char "#") with true. cbv iota.
  by rewrite LexerRuns.match_star_all.
Qed.

(** X6 at the text ["# x = 1"]. *)
Lemma tokenize_comment_line_witness :
  Chars.all Re.dot " x = 1" = true /\ Lexer.tokenize "# x = 1" = Some [].
Proof.
  split; [reflexivity|]. apply (tokenize_comment_line " x = 1"). reflexivity.
Defined.

(** ** The cursor of the parser *)

Module ParserInv.
Import Parser ParserSpec.

Local Arguments bind : simpl never.
Local Arguments lift : simpl never.

Lemma advance_eq self :
  (-1 <= token_index self)%Z ->
  advance self =
  Ok (mk (tokens self)
         (tokens self !! Z.to_nat (token_index self + 1))
         (token_index self + 1)).
Proof.
  intros Hidx. unfold advance.
  destruct (Z.ltb_spec (token_index self + 1)
              (Z.of_nat (length (tokens self)))) as [Hlt|Hge].
  - destruct (PyListFacts.getitem_ok (tokens self) (token_index self + 1))
      as (tok & Htok & ->); [lia|]. simpl. by rewrite Htok.
  - rewrite lookup_ge_None_2 by lia. done.
Qed.

Lemma init_eq tokens : init tokens = Ok (mk tokens (tokens !! 0) 0).
Proof. unfold init. by rewrite advance_eq. Qed.

Lemma init_consistent tokens self :
  init tokens = Ok self -> consistent self /\ Parser.tokens self = tokens.
Proof. rewrite init_eq. intros [= <-]. by split. Qed.

Lemma follows_refl self : consistent self -> follows self self.
Proof. intros Hc. split; [done|]. split; [lia|done]. Qed.

Lemma follows_trans self1 self2 self3 :
  follows self1 self2 -> follows self2 self3 -> follows self1 self3.
Proof.
  intros (Ht & Hi & _) (Ht' & Hi' & Hc). split; [congruence|].
  split; [lia|done].
Qed.

Lemma advance_follows self :
  consistent self -> exists self', advance self = Ok self' /\ follows self self'
    /\ token_index self' = (token_index self + 1)%Z.
Proof.
  intros [Hidx Hcur]. rewrite advance_eq by lia. eexists. split; [done|].
  split; [|done]. unfold follows, consistent. simpl.
  repeat split; try done; lia.
Qed.

Lemma good_trans {A} self1 self2 (r : result (A * t)) :
  follows self1 self2 -> good self2 r -> good self1 r.
Proof.
  intros Hf. destruct r as [[a self3]|e]; simpl; [|done].
  by apply follows_trans.
Qed.

Lemma bind_good {A B} self (x : M A) (k : A -> t -> M B) r :
  (forall r0, x = Some r0 -> good self r0) ->
  (forall a self1 r1,
      follows self self1 -> k a self1 = Some r1 -> good self1 r1) ->
  bind x k = Some r -> good self r.
Proof.
  intros Hx Hk. unfold bind. destruct x as [[[a self1]|e]|]; [..|done].
  - intros Hr. specialize (Hx _ eq_refl). simpl in Hx.
    apply (good_trans self self1); [done|]. by apply (Hk a).
  - intros [= <-]. by apply (Hx _ eq_refl).
Qed.

Lemma lift_advance_good self r :
  consistent self -> lift (advance self) = Some r -> good self r.
Proof.
  intros Hc. destruct (advance_follows self Hc) as (self' & -> & Hf & _).
  by intros [= <-].
Qed.

(** [eat] of the kind of the current token. *)
Lemma lift_eat_good self tok token_type r :
  consistent self -> current_token self = Some tok ->
  String.eqb tok.1 token_type = true ->
  lift (eat token_type self) = Some r -> good self r.
Proof.
  intros Hc Hcur Hk. unfold eat. rewrite Hcur, Hk.
  by apply lift_advance_good.
Qed.

(** [eat] of a closing parenthesis, whatever the current token. *)
Lemma lift_eat_close_good self r :
  consistent self -> lift (eat ")" self) = Some r -> good self r.
Proof.
  intros Hc. unfold eat. destruct (current_token self) as [tok|].
  - destruct (String.eqb tok.1 ")"); [by apply lift_advance_good|].
    intros [= <-]. right. by exists tok.1.
  - intros [= <-]. by left.
Qed.

Lemma ret_good {A} (a : A) self r :
  consistent self -> ret a self = Some r -> good self r.
Proof. intros Hc [= <-]. by apply follows_refl. Qed.

Lemma methods_kept fuel :
  kept (factor fuel)
  /\ (forall n, kept (term_loop fuel n))
  /\ kept (term fuel)
  /\ (forall n, kept (expr_loop fuel n))
  /\ kept (expr fuel).
Proof.
  induction fuel as [|fuel (Hfactor & Hterm_loop & Hterm & Hexpr_loop & Hexpr)].
  { repeat split; intros; intros ? ?; done. }
  repeat split.
  - intros self r Hc; simpl.
    destruct (current_token self) as [token|] eqn:Hcur;
      [|intros [= <-]; by left].
    destruct (String.eqb token.1 "NUMBER") eqn:H1.
    { apply bind_good; [intros r0; by apply (lift_eat_good self token)|].
      intros _ self1 r1 Hf. apply ret_good, Hf. }
    destruct (String.eqb token.1 "IDENTIFIER") eqn:H2.
    { apply bind_good; [intros r0; by apply (lift_eat_good self token)|].
      intros _ self1 r1 Hf. apply ret_good, Hf. }
    destruct (String.eqb token.1 "STRING") eqn:H3.
    { apply bind_good; [intros r0; by apply (lift_eat_good self token)|].
      intros _ self1 r1 Hf. apply ret_good, Hf. }
    destruct (String.eqb token.1 "(") eqn:H4; [|by apply ret_good].
    apply bind_good; [intros r0; by apply (lift_eat_good self token)|].
    intros _ self1 r1 Hf1.
    apply bind_good; [intros r0; apply Hexpr, Hf1|].
    intros e self2 r2 Hf2.
    apply bind_good; [intros r0; apply lift_eat_close_good, Hf2|].
    intros _ self3 r3 Hf3. apply ret_good, Hf3.
  - intros n self r Hc; simpl.
    destruct (current_token self) as [tok|]; [|by apply ret_good].
    destruct (is_mul_div tok.1); [|by apply ret_good].
    apply bind_good; [intros r0; by apply lift_advance_good|].
    intros _ self1 r1 Hf1.
    apply bind_good; [intros r0; apply Hfactor, Hf1|].
    intros rhs self2 r2 Hf2. apply Hterm_loop, Hf2.
  - intros self r Hc; simpl.
    apply bind_good; [intros r0; by apply Hfactor|].
    intros n self1 r1 Hf1. apply Hterm_loop, Hf1.
  - intros n self r Hc; simpl.
    destruct (current_token self) as [tok|]; [|by apply ret_good].
    destruct (is_add_sub tok.1); [|by apply ret_good].
    apply bind_good; [intros r0; by apply lift_advance_good|].
    intros _ self1 r1 Hf1.
    apply bind_good; [intros r0; apply Hterm, Hf1|].
    intros rhs self2 r2 Hf2. apply Hexpr_loop, Hf2.
  - intros self r Hc; simpl.
    apply bind_good; [intros r0; by apply Hterm|].
    intros n self1 r1 Hf1. apply Hexpr_loop, Hf1.
Qed.

End ParserInv.

(** X7: from [Parser(tokens)], whenever [expr] returns, the parser has the
    same tokens, its cursor is at or after the first token, and its current
    token is the token under the cursor, or none past the end. *)
Theorem expr_keeps_tokens (tokens : list token) :
  exists self0,
    Parser.init tokens = Ok self0
    /\ forall fuel n self',
         Parser.expr fuel self0 = Some (Ok (n, self')) ->
         Parser.tokens self' = tokens
         /\ (0 <= Parser.token_index self')%Z
         /\ Parser.current_token self'
            = tokens !! Z.to_nat (Parser.token_index self').
Proof.
  eexists. split; [apply ParserInv.init_eq|].
  intros fuel n self' Hexpr.
  destruct (ParserInv.methods_kept fuel) as (_ & _ & _ & _ & Hkept).
  apply Hkept in Hexpr; [|by split].
  destruct Hexpr as (Htok & Hidx & Hpos & Hcur). simpl in *.
  rewrite Htok in Hcur. done.
Qed.

(** X7 at the tokens of [( 1 ) 2]. *)
Lemma expr_keeps_tokens_witness :
  let tokens := [("(", "("); ("NUMBER", "1"); (")", ")"); ("NUMBER", "2")] in
  Parser.expr 6 (Parser.mk tokens (tokens !! 0) 0)
  = Some (Ok (number "1", Parser.mk tokens (tokens !! 3) 3))
  /\ Parser.tokens (Parser.mk tokens (tokens !! 3) 3) = tokens.
Proof.
  split; [reflexivity|].
  destruct (expr_keeps_tokens
              [("(", "("); ("NUMBER", "1"); (")", ")"); ("NUMBER", "2")])
    as (self0 & Hinit & Hkeep).
  injection Hinit as <-.
  apply (Hkeep 6 (number "1")). reflexivity.
Defined.

(** ** The parser within the recursion limit *)

Module ParserLimitedFacts.
Import Parser.

Lemma bind_sound {A B} (x : ParserLimited.outcome A) (y : M A)
    (k : A -> t -> ParserLimited.outcome B) (k' : A -> t -> M B) :
  ParserLimited.sound x y ->
  (forall a self, ParserLimited.sound (k a self) (k' a self)) ->
  ParserLimited.sound (ParserLimited.bind x k) (bind y k').
Proof.
  intros Hx Hk r. destruct x as [| |[[a self]|e]]; simpl; try done.
  - rewrite (Hx _ eq_refl). simpl. apply Hk.
  - rewrite (Hx _ eq_refl). simpl. by intros [= <-].
Qed.

Lemma advance_sound depth self :
  ParserLimited.sound (ParserLimited.advance depth self)
    (lift (advance self)).
Proof. destruct depth; intros r; simpl; [done|]. by intros [= <-]. Qed.

Lemma eat_sound depth token_type self :
  ParserLimited.sound (ParserLimited.eat depth token_type self)
    (lift (eat token_type self)).
Proof.
  destruct depth; intros r; [done|]. unfold eat. simpl.
  destruct (current_token self) as [tok|]; [|by intros [= <-]].
  destruct (String.eqb tok.1 token_type); [apply advance_sound|].
  by intros [= <-].
Qed.

Lemma ret_sound {A} (a : A) self :
  ParserLimited.sound (ParserLimited.ret a self) (ret a self).
Proof. intros r. by intros [= <-]. Qed.

Lemma methods_sound fuel :
  forall depth,
    (forall self, ParserLimited.sound (ParserLimited.factor depth fuel self)
                    (factor fuel self))
    /\ (forall n self,
          ParserLimited.sound (ParserLimited.term_loop depth fuel n self)
            (term_loop fuel n self))
    /\ (forall self, ParserLimited.sound (ParserLimited.term depth fuel self)
                       (term fuel self))
    /\ (forall n self,
          ParserLimited.sound (ParserLimited.expr_loop depth fuel n self)
            (expr_loop fuel n self))
    /\ (forall self, ParserLimited.sound (ParserLimited.expr depth fuel self)
                       (expr fuel self)).
Proof.
  induction fuel as [|fuel IH]; intros depth.
  { repeat split; intros; intros r; by destruct depth. }
  repeat split.
  - intros self. destruct depth as [|depth]; [done|].
    destruct (IH depth) as (_ & _ & _ & _ & Hexpr).
    cbn [ParserLimited.factor factor].
    destruct (current_token self) as [token|]; [|by intros r [= <-]].
    repeat (case_match;
            [apply bind_sound; [apply eat_sound|intros; apply ret_sound]|]).
    case_match; [|apply ret_sound].
    apply bind_sound; [apply eat_sound|]. intros _ self1.
    apply bind_sound; [apply Hexpr|]. intros e self2.
    apply bind_sound; [apply eat_sound|]. intros; apply ret_sound.
  - intros n self. destruct (IH depth) as (Hfactor & Hterm_loop & _).
    cbn [ParserLimited.term_loop term_loop].
    destruct (current_token self) as [tok|]; [|apply ret_sound].
    case_match; [|apply ret_sound].
    apply bind_sound; [apply advance_sound|]. intros _ self1.
    apply bind_sound; [apply Hfactor|]. intros rhs self2.
    apply Hterm_loop.
  - intros self. destruct depth as [|depth]; [done|].
    destruct (IH depth) as (Hfactor & Hterm_loop & _).
    cbn [ParserLimited.term term].
    apply bind_sound; [apply Hfactor|apply Hterm_loop].
  - intros n self. destruct (IH depth) as (_ & _ & Hterm & Hexpr_loop & _).
    cbn [ParserLimited.expr_loop expr_loop].
    destruct (current_token self) as [tok|]; [|apply ret_sound].
    case_match; [|apply ret_sound].
    apply bind_sound; [apply advance_sound|]. intros _ self1.
    apply bind_sound; [apply Hterm|]. intros rhs self2.
    apply Hexpr_loop.
  - intros self. destruct depth as [|depth]; [done|].
    destruct (IH depth) as (_ & _ & Hterm & Hexpr_loop & _).
    cbn [ParserLimited.expr expr].
    apply bind_sound; [apply Hterm|apply Hexpr_loop].
Qed.

End ParserLimitedFacts.

(** X8: whatever the recursion limit, an exception other than
    RecursionError that [Parser(tokens).expr()] raises is the TypeError of
    a missing token or the SyntaxError of [eat] for a closing parenthesis,
    whose message names the kind found in its place; a run that returns or
    raises within the limit does what the run without a limit does. *)
Theorem expr_raises (tokens : list token) (depth fuel : nat) (e : exn) :
  ParserLimited.parse depth fuel tokens = ParserLimited.Done (Raise e) ->
  (e = TypeError
   \/ exists kind, e = SyntaxError ("Expected ), got " +:+ kind))
  /\ Parser.parse fuel tokens = Some (Raise e).
Proof.
  unfold ParserLimited.parse, Parser.parse. rewrite ParserInv.init_eq.
  intros Hexpr.
  destruct (ParserLimitedFacts.methods_sound fuel depth)
    as (_ & _ & _ & _ & Hsound).
  apply Hsound in Hexpr. rewrite Hexpr. split; [|done].
  destruct (ParserInv.methods_kept fuel) as (_ & _ & _ & _ & Hkept).
  apply Hkept in Hexpr; [exact Hexpr|by split].
Qed.

(** X8 at the tokens of [( 1 2] and room for ten nested calls. *)
Lemma expr_raises_witness :
  ParserLimited.parse 10 6 [("(", "("); ("NUMBER", "1"); ("NUMBER", "2")]
  = ParserLimited.Done (Raise (SyntaxError "Expected ), got NUMBER"))
  /\ (SyntaxError "Expected ), got NUMBER" = TypeError
      \/ exists kind,
           SyntaxError "Expected ), got NUMBER"
           = SyntaxError ("Expected ), got " +:+ kind)).
Proof.
  split; [reflexivity|].
  apply (expr_raises [("(", "("); ("NUMBER", "1"); ("NUMBER", "2")] 10 6).
  reflexivity.
Defined.

(** ** Termination of the parser *)

Module ParserTermination.
Import Parser ParserSpec ParserInv.

Local Arguments bind : simpl never.
Local Arguments lift : simpl never.

Lemma follows_remaining self self' :
  follows self self' -> remaining self' <= remaining self.
Proof. intros (Ht & Hi & _). unfold remaining. rewrite Ht. lia. Qed.

Lemma current_remaining self tok :
  consistent self -> current_token self = Some tok -> 1 <= remaining self.
Proof.
  intros [Hidx Hcur] Htok. rewrite Hcur in Htok.
  apply lookup_lt_Some in Htok. unfold remaining. lia.
Qed.

Lemma advance_remaining self tok :
  consistent self -> current_token self = Some tok ->
  exists self', advance self = Ok self' /\ consistent self'
    /\ follows self self' /\ S (remaining self') = remaining self.
Proof.
  intros Hc Htok. pose proof (current_remaining self tok Hc Htok) as Hr.
  destruct (advance_follows self Hc) as (self' & Hadv & Hf & Hidx).
  exists self'. split; [done|]. split; [apply Hf|]. split; [done|].
  destruct Hf as (Ht & _ & _). destruct Hc as [Hpos _].
  unfold remaining in *. rewrite Ht, Hidx. lia.
Qed.

Lemma bind_returns {A B} (x : M A) (k : A -> t -> M B) :
  (exists r0, x = Some r0
     /\ forall a self1, r0 = Ok (a, self1) -> exists res, k a self1 = Some res)
  -> exists res, bind x k = Some res.
Proof.
  intros ([[a self1]|e] & -> & Hk); unfold bind; [by apply Hk|eauto].
Qed.

Lemma returns_mono fuel fuel' self :
  fuel <= fuel' ->
  (returns (factor fuel) self -> returns (factor fuel') self)
  /\ (forall n, returns (term_loop fuel n) self ->
                returns (term_loop fuel' n) self)
  /\ (returns (term fuel) self -> returns (term fuel') self)
  /\ (forall n, returns (expr_loop fuel n) self ->
                returns (expr_loop fuel' n) self)
  /\ (returns (expr fuel) self -> returns (expr fuel') self).
Proof.
  intros Hle.
  destruct (ParserFacts.fuel_mono fuel fuel' Hle) as (H1 & H2 & H3 & H4 & H5).
  repeat split; [|intros n|..|intros n|]; intros [res Hres]; exists res.
  - by apply H1.
  - by apply H2.
  - by apply H3.
  - by apply H4.
  - by apply H5.
Qed.

Lemma bind_ok {A B} (a : A) self1 (k : A -> t -> M B) :
  bind (Some (Ok (a, self1))) k = k a self1.
Proof. reflexivity. Qed.

Lemma lift_ok self self1 : self = Ok self1 -> lift self = Some (Ok (tt, self1)).
Proof. by intros ->. Qed.

Lemma eat_ok self tok self1 token_type :
  current_token self = Some tok -> advance self = Ok self1 ->
  String.eqb tok.1 token_type = true ->
  lift (eat token_type self) = Some (Ok (tt, self1)).
Proof. intros Hcur Hadv Hk. apply lift_ok. unfold eat. by rewrite Hcur, Hk. Qed.

Lemma kept_follows {A} (f : t -> M A) self a self1 :
  kept f -> consistent self -> f self = Some (Ok (a, self1)) ->
  consistent self1 /\ remaining self1 <= remaining self.
Proof.
  intros Hk Hc Hf. apply Hk in Hf; [|done]. simpl in Hf.
  split; [apply Hf|by apply follows_remaining].
Qed.

(** With three units of fuel for each token left, and three more, every
    parsing method returns or raises. *)
Lemma methods_return r :
  forall self, consistent self -> remaining self <= r ->
    returns (factor (3 * r + 1)) self
    /\ (forall n, returns (term_loop (3 * r + 1) n) self)
    /\ returns (term (3 * r + 2)) self
    /\ (forall n, returns (expr_loop (3 * r + 2) n) self)
    /\ returns (expr (3 * r + 3)) self.
Proof.
  induction r as [r IH] using lt_wf_ind.
  assert (forall self, consistent self -> remaining self <= r ->
            returns (factor (3 * r + 1)) self) as HA.
  { intros self Hc Hr. replace (3 * r + 1) with (S (3 * r)) by lia.
    unfold returns. cbn [factor].
    destruct (current_token self) as [token|] eqn:Hcur; [|eauto].
    destruct (advance_remaining self token Hc Hcur)
      as (self1 & Hadv & Hc1 & Hf1 & Hr1).
    destruct (String.eqb token.1 "NUMBER") eqn:H1.
    { rewrite (eat_ok self token self1) by done. rewrite bind_ok.
      unfold ret. eauto. }
    destruct (String.eqb token.1 "IDENTIFIER") eqn:H2.
    { rewrite (eat_ok self token self1) by done. rewrite bind_ok.
      unfold ret. eauto. }
    destruct (String.eqb token.1 "STRING") eqn:H3.
    { rewrite (eat_ok self token self1) by done. rewrite bind_ok.
      unfold ret. eauto. }
    destruct (String.eqb token.1 "(") eqn:H4; [|unfold ret; eauto].
    rewrite (eat_ok self token self1) by done. rewrite bind_ok.
    destruct r as [|r']; [lia|].
    destruct (IH r' ltac:(lia) self1 Hc1 ltac:(lia))
      as (_ & _ & _ & _ & [res Hres]).
    replace (3 * S r') with (3 * r' + 3) by lia.
    apply bind_returns. exists res. split; [done|]. intros e self2 _.
    apply bind_returns. unfold lift. eexists. split; [done|].
    intros _ self3 _. unfold ret. eauto. }
  assert (forall self, consistent self -> remaining self <= r ->
            forall n, returns (term_loop (3 * r + 1) n) self) as HB.
  { intros self Hc Hr n. replace (3 * r + 1) with (S (3 * r)) by lia.
    unfold returns. cbn [term_loop].
    destruct (current_token self) as [tok|] eqn:Hcur; [|unfold ret; eauto].
    destruct (is_mul_div tok.1); [|unfold ret; eauto].
    destruct (advance_remaining self tok Hc Hcur)
      as (self1 & Hadv & Hc1 & Hf1 & Hr1).
    rewrite (lift_ok _ _ Hadv), bind_ok.
    destruct r as [|r']; [lia|].
    destruct (IH r' ltac:(lia) self1 Hc1 ltac:(lia)) as (HF & _).
    apply (returns_mono (3 * r' + 1) (3 * S r') self1 ltac:(lia)) in HF
      as [res Hres].
    apply bind_returns. exists res. split; [done|]. intros rhs self2 ->.
    destruct (methods_kept (3 * S r')) as (Hk & _).
    destruct (kept_follows _ _ _ _ Hk Hc1 Hres) as [Hc2 Hr2].
    destruct (IH r' ltac:(lia) self2 Hc2 ltac:(lia)) as (_ & HTL & _).
    by apply (returns_mono (3 * r' + 1) (3 * S r') self2 ltac:(lia)). }
  assert (forall self, consistent self -> remaining self <= r ->
            returns (term (3 * r + 2)) self) as HC.
  { intros self Hc Hr. replace (3 * r + 2) with (S (3 * r + 1)) by lia.
    unfold returns. cbn [term].
    destruct (HA self Hc Hr) as [res Hres].
    apply bind_returns. exists res. split; [done|]. intros n self1 ->.
    destruct (methods_kept (3 * r + 1)) as (Hk & _).
    destruct (kept_follows _ _ _ _ Hk Hc Hres) as [Hc1 Hr1].
    apply HB; [done|lia]. }
  assert (forall self, consistent self -> remaining self <= r ->
            forall n, returns (expr_loop (3 * r + 2) n) self) as HD.
  { intros self Hc Hr n. replace (3 * r + 2) with (S (3 * r + 1)) by lia.
    unfold returns. cbn [expr_loop].
    destruct (current_token self) as [tok|] eqn:Hcur; [|unfold ret; eauto].
    destruct (is_add_sub tok.1); [|unfold ret; eauto].
    destruct (advance_remaining self tok Hc Hcur)
      as (self1 & Hadv & Hc1 & Hf1 & Hr1).
    rewrite (lift_ok _ _ Hadv), bind_ok.
    destruct r as [|r']; [lia|].
    destruct (IH r' ltac:(lia) self1 Hc1 ltac:(lia)) as (_ & _ & HT & _).
    apply (returns_mono (3 * r' + 2) (3 * S r' + 1) self1 ltac:(lia)) in HT
      as [res Hres].
    apply bind_returns. exists res. split; [done|]. intros rhs self2 ->.
    destruct (methods_kept (3 * S r' + 1)) as (_ & _ & Hk & _).
    destruct (kept_follows _ _ _ _ Hk Hc1 Hres) as [Hc2 Hr2].
    destruct (IH r' ltac:(lia) self2 Hc2 ltac:(lia)) as (_ & _ & _ & HEL & _).
    by apply (returns_mono (3 * r' + 2) (3 * S r' + 1) self2 ltac:(lia)). }
  intros self Hc Hr. repeat split; auto.
  replace (3 * r + 3) with (S (3 * r + 2)) by lia.
  unfold returns. cbn [expr].
  destruct (HC self Hc Hr) as [res Hres].
  apply bind_returns. exists res. split; [done|]. intros n self1 ->.
  destruct (methods_kept (3 * r + 2)) as (_ & _ & Hk & _).
  destruct (kept_follows _ _ _ _ Hk Hc Hres) as [Hc1 Hr1].
  apply HD; [done|lia].
Qed.

End ParserTermination.

(** X9: [Parser(tokens).expr()] terminates on every token list: with
    three units of fuel for each token, and three more, it returns a tree
    or raises, and more fuel gives the same. *)
Theorem expr_terminates (tokens : list token) :
  exists r,
    Parser.parse (3 * length tokens + 3) tokens = Some r
    /\ forall fuel, 3 * length tokens + 3 <= fuel ->
         Parser.parse fuel tokens = Some r.
Proof.
  assert (exists r, Parser.parse (3 * length tokens + 3) tokens = Some r)
    as [r Hr].
  { unfold Parser.parse. rewrite ParserInv.init_eq.
    destruct (ParserTermination.methods_return (length tokens)
                (Parser.mk tokens (tokens !! 0) 0))
      as (_ & _ & _ & _ & [res Hres]).
    - by split.
    - unfold ParserSpec.remaining. simpl. lia.
    - rewrite Hres. destruct res as [[n self']|e]; eauto. }
  exists r. split; [done|].
  intros fuel Hfuel. by apply (ParserFacts.parse_mono _ _ _ _ Hfuel).
Qed.

(** ** The parser on the tokens of the lexer *)

Module ParserLexed.
Import Parser ParserSpec ParserInv ParserTermination.

Local Arguments bind : simpl never.
Local Arguments lift : simpl never.
Local Arguments eat : simpl never.
Local Arguments ret : simpl never.

Lemma kinds_not_ops kind :
  In kind Chars.kinds ->
  is_mul_div kind = false /\ is_add_sub kind = false.
Proof. simpl. intros [<-|[<-|[<-|[<-|[<-|[]]]]]]; done. Qed.

(** On a token of the lexer [factor] returns its leaf, or [None] for an
    OPERATOR or INVALID token, which it leaves in place. *)
Lemma factor_lexed fuel self tok :
  consistent self -> current_token self = Some tok ->
  In tok.1 Chars.kinds ->
  exists self',
    factor (S fuel) self = Some (Ok (leaf tok, self')) /\ follows self self'.
Proof.
  intros Hc Hcur Hk. cbn [factor]. rewrite Hcur.
  destruct (advance_follows self Hc) as (self1 & Hadv & Hf1 & _).
  unfold leaf. simpl in Hk.
  destruct Hk as [Hk|[Hk|[Hk|[Hk|[Hk|[]]]]]]; rewrite <- Hk; simpl.
  - rewrite (eat_ok self tok self1) by (by rewrite <- ?Hk).
    rewrite bind_ok. by exists self1.
  - rewrite (eat_ok self tok self1) by (by rewrite <- ?Hk).
    rewrite bind_ok. by exists self1.
  - exists self. split; [done|by apply follows_refl].
  - rewrite (eat_ok self tok self1) by (by rewrite <- ?Hk).
    rewrite bind_ok. by exists self1.
  - exists self. split; [done|by apply follows_refl].
Qed.

(** At a token of the lexer, or at the end, both loops stop at once. *)
Lemma loops_stop fuel n self :
  (forall tok, current_token self = Some tok -> In tok.1 Chars.kinds) ->
  term_loop (S fuel) n self = ret n self
  /\ expr_loop (S fuel) n self = ret n self.
Proof.
  intros Hk. cbn [term_loop expr_loop].
  destruct (current_token self) as [tok|]; [|done].
  destruct (kinds_not_ops tok.1 (Hk tok eq_refl)) as [-> ->]. done.
Qed.

Lemma parse_lexed tokens fuel :
  Forall (fun t : token => In t.1 Chars.kinds) tokens ->
  parse (3 + fuel) tokens =
  Some (match tokens with
        | [] => Raise TypeError
        | tok :: _ => Ok (leaf tok)
        end).
Proof.
  intros Hall. unfold parse. rewrite init_eq.
  destruct tokens as [|tok rest]; [reflexivity|].
  change (3 + fuel) with (S (S (S fuel))). cbn [expr term].
  set (tokens := tok :: rest) in *.
  assert (consistent (mk tokens (tokens !! 0) 0)) as Hc by (by split).
  destruct (factor_lexed fuel (mk tokens (tokens !! 0) 0) tok Hc eq_refl)
    as (self' & -> & Hf).
  { by inversion Hall. }
  rewrite bind_ok.
  assert (forall t, current_token self' = Some t -> In t.1 Chars.kinds)
    as Hcur.
  { intros t Ht. destruct Hf as (Htok & _ & _ & Hcur). simpl in Htok.
    rewrite Hcur, Htok in Ht. rewrite Forall_forall in Hall.
    apply Hall. apply list_elem_of_lookup. eauto. }
  rewrite (proj1 (loops_stop fuel _ self' Hcur)). unfold ret at 1.
  rewrite bind_ok.
  by rewrite (proj2 (loops_stop (S fuel) _ self' Hcur)).
Qed.

End ParserLexed.

(** X10: on the tokens the lexer returns for any text, [expr] takes at most
    the first token: it raises TypeError when there is none, and else
    returns the leaf of the first token, or [None] when that is an OPERATOR
    or INVALID token; it never returns a [binop]. *)
Theorem expr_of_lexed_text (code : string) :
  exists tokens,
    Lexer.tokenize code = Some tokens
    /\ forall fuel,
         Parser.parse (3 + fuel) tokens =
         Some (match tokens with
               | [] => Raise TypeError
               | tok :: _ => Ok (ParserSpec.leaf tok)
               end).
Proof.
  destruct (LexerKinds.tokenize_In_kinds code) as (tokens & Htok & Hall).
  exists tokens. split; [done|]. intros fuel.
  apply ParserLexed.parse_lexed.
  eapply Forall_impl; [exact Hall|]. by intros t [? _].
Qed.

(** ** Chains of operators *)

Module ParserChains.
Import Parser ParserSpec ParserInv ParserTermination.

Local Arguments bind : simpl never.
Local Arguments lift : simpl never.
Local Arguments eat : simpl never.
Local Arguments ret : simpl never.

Lemma drop_cons_lookup {A} (l : list A) i x l' :
  drop i l = x :: l' -> l !! i = Some x /\ drop (S i) l = l'.
Proof.
  revert l. induction i as [|i IH]; intros [|y l]; simpl; try done.
  - intros [= -> ->]. split; [done|]. by rewrite drop_0.
  - apply IH.
Qed.

Lemma advance_at tokens i :
  advance (state_at tokens i) = Ok (state_at tokens (S i)).
Proof.
  rewrite advance_eq by (simpl; lia). unfold state_at. simpl.
  replace (Z.to_nat (Z.of_nat i + 1)) with (S i) by lia.
  by replace (Z.of_nat i + 1)%Z with (Z.of_nat (S i)) by lia.
Qed.

Lemma current_at (tokens : list token) i tok :
  tokens !! i = tok -> current_token (state_at tokens i) = tok.
Proof. intros H. exact H. Qed.

Lemma factor_number fuel tokens i b :
  tokens !! i = Some ("NUMBER", b) ->
  factor (S fuel) (state_at tokens i)
  = ret (number b) (state_at tokens (S i)).
Proof.
  intros Hi. cbn [factor].
  rewrite (current_at _ _ _ Hi). simpl.
  rewrite (eat_ok _ ("NUMBER", b) (state_at tokens (S i)));
    [by rewrite bind_ok|by simpl|apply advance_at|done].
Qed.

Lemma op_name_mul_div op :
  is_mul_div op = true ->
  (if String.eqb op "*" then "mul" else "div") = op_name op.
Proof.
  unfold is_mul_div, op_name.
  destruct (String.eqb op "*"); [done|]. simpl. by intros ->.
Qed.

Lemma op_name_add_sub op :
  is_add_sub op = true ->
  (if String.eqb op "+" then "add" else "sub") = op_name op
  /\ is_mul_div op = false.
Proof.
  unfold is_add_sub, is_mul_div, op_name.
  destruct (String.eqb_spec op "+") as [->|]; [done|].
  destruct (String.eqb_spec op "-") as [->|]; done.
Qed.

(** The loop of [term] on a chain of [*] and [/]. *)
Lemma term_loop_chain rest :
  forall fuel acc i tokens tail,
    Forall (fun p : string * string => is_mul_div p.1 = true) rest ->
    drop i tokens
    = flat_map (fun p => [(p.1, p.1); ("NUMBER", p.2)]) rest ++ tail ->
    match tail with
    | [] => True
    | tok :: _ => is_mul_div tok.1 = false
    end ->
    length rest < fuel ->
    term_loop fuel acc (state_at tokens i)
    = ret (foldl (fun acc p => binop (op_name p.1) acc (number p.2)) acc rest)
          (state_at tokens (i + 2 * length rest)).
Proof.
  induction rest as [|[op b] rest IH];
    intros fuel acc i tokens tail Hops Hdrop Htail Hfuel.
  - destruct fuel as [|fuel]; [simpl in Hfuel; lia|].
    simpl in Hdrop. replace (i + 2 * length []) with i by (simpl; lia).
    cbn [term_loop foldl].
    destruct tail as [|tok tail].
    + rewrite (current_at tokens i None); [done|].
      apply lookup_ge_None_2.
      apply (f_equal length) in Hdrop. rewrite length_drop in Hdrop.
      simpl (length []) in Hdrop. unfold token in *. lia.
    + apply drop_cons_lookup in Hdrop as [Hi _].
      rewrite (current_at _ _ _ Hi). by rewrite Htail.
  - apply Forall_cons in Hops as [Hop Hops]. simpl in Hop, Hdrop, Hfuel.
    apply drop_cons_lookup in Hdrop as [Hi Hdrop].
    apply drop_cons_lookup in Hdrop as [Hi1 Hdrop].
    destruct fuel as [|fuel]; [lia|].
    cbn [term_loop]. rewrite (current_at _ _ _ Hi).
    simpl fst. rewrite Hop, (op_name_mul_div op Hop).
    rewrite (lift_ok _ _ (advance_at tokens i)), bind_ok.
    destruct fuel as [|fuel]; [lia|].
    rewrite (factor_number fuel tokens (S i) b Hi1). unfold ret at 1.
    rewrite bind_ok.
    rewrite (IH (S fuel) _ (S (S i)) tokens tail Hops Hdrop Htail ltac:(lia)).
    cbn [foldl length]. simpl fst. simpl snd.
    by replace (S (S i) + 2 * length rest) with (i + 2 * S (length rest))
      by lia.
Qed.

(** The loop of [expr] on a chain of [+] and [-]. *)
Lemma expr_loop_chain rest :
  forall fuel acc i tokens,
    Forall (fun p : string * string => is_add_sub p.1 = true) rest ->
    drop i tokens
    = flat_map (fun p => [(p.1, p.1); ("NUMBER", p.2)]) rest ->
    length rest + 2 <= fuel ->
    expr_loop fuel acc (state_at tokens i)
    = ret (foldl (fun acc p => binop (op_name p.1) acc (number p.2)) acc rest)
          (state_at tokens (i + 2 * length rest)).
Proof.
  induction rest as [|[op b] rest IH];
    intros fuel acc i tokens Hops Hdrop Hfuel.
  - destruct fuel as [|fuel]; [simpl in Hfuel; lia|].
    simpl in Hdrop. replace (i + 2 * length []) with i by (simpl; lia).
    cbn [expr_loop foldl].
    rewrite (current_at tokens i None); [done|]. apply lookup_ge_None_2.
    apply (f_equal length) in Hdrop. rewrite length_drop in Hdrop.
    simpl (length []) in Hdrop. unfold token in *. lia.
  - apply Forall_cons in Hops as [Hop Hops]. simpl in Hop, Hdrop, Hfuel.
    apply drop_cons_lookup in Hdrop as [Hi Hdrop].
    apply drop_cons_lookup in Hdrop as [Hi1 Hdrop].
    destruct fuel as [|fuel]; [lia|].
    destruct (op_name_add_sub op Hop) as [Hname _].
    cbn [expr_loop]. rewrite (current_at _ _ _ Hi).
    simpl fst. rewrite Hop, Hname.
    rewrite (lift_ok _ _ (advance_at tokens i)), bind_ok.
    destruct fuel as [|fuel]; [lia|]. cbn [term].
    destruct fuel as [|fuel]; [lia|].
    rewrite (factor_number fuel tokens (S i) b Hi1). unfold ret at 1.
    rewrite bind_ok.
    rewrite (term_loop_chain [] (S fuel) (number b) (S (S i)) tokens
               (flat_map (fun p => [(p.1, p.1); ("NUMBER", p.2)]) rest)).
    + unfold ret at 1. rewrite bind_ok. cbn [foldl length].
      replace (S (S i) + 2 * 0) with (S (S i)) by lia.
      rewrite (IH (S (S fuel)) _ (S (S i)) tokens Hops Hdrop ltac:(lia)).
      simpl fst. simpl snd.
      by replace (S (S i) + 2 * length rest) with (i + 2 * S (length rest))
        by lia.
    + constructor.
    + done.
    + destruct rest as [|[op' b'] rest']; [done|]. simpl.
      apply Forall_cons in Hops as [Hop' _]. simpl in Hop'.
      by destruct (op_name_add_sub op' Hop').
    + simpl. lia.
Qed.

End ParserChains.

(** X11: a chain [a op b op c ...] of numbers with operator tokens of
    kind [*] or [/] only, or of kind [+] or [-] only, is parsed into the
    tree nested to the left, [((a op b) op c) ...]. *)
Theorem chains_nest_left (a : string) (rest : list (string * string))
    (fuel : nat) :
  Forall (fun p : string * string => Parser.is_mul_div p.1 = true) rest
  \/ Forall (fun p : string * string => Parser.is_add_sub p.1 = true) rest ->
  Parser.parse (length rest + 4 + fuel) (ParserSpec.chain_tokens a rest)
  = Some (Ok (ParserSpec.chain_tree a rest)).
Proof.
  intros Hops. unfold Parser.parse. rewrite ParserInv.init_eq.
  set (tokens := ParserSpec.chain_tokens a rest).
  change (Parser.mk tokens (tokens !! 0) 0)
    with (ParserSpec.state_at tokens 0).
  replace (length rest + 4 + fuel)
    with (S (S (S (length rest + 1 + fuel)))) by lia.
  cbn [Parser.expr Parser.term].
  rewrite (ParserChains.factor_number _ tokens 0 a eq_refl).
  unfold Parser.ret at 1. rewrite ParserTermination.bind_ok.
  assert (drop 1 tokens
          = flat_map (fun p => [(p.1, p.1); ("NUMBER", p.2)]) rest)
    as Hdrop by done.
  assert (drop (1 + 2 * length rest) tokens = []) as Hend.
  { apply drop_ge. unfold tokens.
    unfold ParserSpec.chain_tokens. simpl length.
    assert (forall l : list (string * string),
              length (flat_map (fun p => [(p.1, p.1); ("NUMBER", p.2)]) l)
              = 2 * length l) as Hlen.
    { induction l as [|p l IH]; simpl; [done|]. rewrite IH. lia. }
    rewrite Hlen. lia. }
  destruct Hops as [Hmul|Hadd].
  - rewrite (ParserChains.term_loop_chain rest _ (number a) 1 tokens []);
      [|done|by rewrite app_nil_r|done|lia].
    unfold Parser.ret at 1. rewrite ParserTermination.bind_ok.
    rewrite (ParserChains.expr_loop_chain [] _ _ (1 + 2 * length rest) tokens);
      [|constructor|exact Hend|simpl; lia].
    done.
  - rewrite (ParserChains.term_loop_chain [] _ (number a) 1 tokens
               (flat_map (fun p => [(p.1, p.1); ("NUMBER", p.2)]) rest));
      [|constructor|done| |simpl; lia].
    + unfold Parser.ret at 1. rewrite ParserTermination.bind_ok.
      rewrite (ParserChains.expr_loop_chain rest _ _ 1 tokens);
        [done|done|done|lia].
    + destruct rest as [|[op b] rest']; [done|]. simpl.
      apply Forall_cons in Hadd as [Hop _]. simpl in Hop.
      by destruct (ParserChains.op_name_add_sub op Hop).
Qed.

(** X11 at the tokens of [8 - 3 - 2]. *)
Lemma chains_nest_left_witness :
  (Forall (fun p : string * string => Parser.is_mul_div p.1 = true)
     [("-", "3"); ("-", "2")]
   \/ Forall (fun p : string * string => Parser.is_add_sub p.1 = true)
        [("-", "3"); ("-", "2")])
  /\ Parser.parse 6
       [("NUMBER", "8"); ("-", "-"); ("NUMBER", "3"); ("-", "-");
        ("NUMBER", "2")]
     = Some (Ok (binop "sub" (binop "sub" (number "8") (number "3"))
                   (number "2"))).
Proof.
  assert (Forall (fun p : string * string => Parser.is_mul_div p.1 = true)
            [("-", "3"); ("-", "2")]
          \/ Forall (fun p : string * string => Parser.is_add_sub p.1 = true)
               [("-", "3"); ("-", "2")]) as Hops.
  { right. repeat constructor. }
  split; [exact Hops|].
  exact (chains_nest_left "8" [("-", "3"); ("-", "2")] 0 Hops).
Defined.

(** ** Lookups after insertions *)

Module TableLookups.

(** *** The ordered table *)

Lemma ordered_add_symbols {V} (self kvs : list (string * V)) :
  OrderedSymbolTable.add_symbols self kvs = self ++ kvs.
Proof.
  unfold OrderedSymbolTable.add_symbols. revert self.
  induction kvs as [|[k v] kvs IH]; intros self; simpl.
  - by rewrite app_nil_r.
  - rewrite IH. unfold OrderedSymbolTable.add_symbol.
    by rewrite <- app_assoc.
Qed.

Lemma ordered_get_add {V} (self : list (string * V)) k v name :
  OrderedSymbolTable.get_symbol (OrderedSymbolTable.add_symbol self k v) name
  = if String.eqb k name
    then match OrderedSymbolTable.get_symbol self name with
         | Some first => Some first
         | None => Some v
         end
    else OrderedSymbolTable.get_symbol self name.
Proof.
  unfold OrderedSymbolTable.add_symbol.
  rewrite OrderedFacts.get_symbol_app. simpl.
  destruct (String.eqb k name);
    by destruct (OrderedSymbolTable.get_symbol self name).
Qed.

Lemma ordered_found {V} (self : list (string * V)) name :
  is_Some (OrderedSymbolTable.get_symbol self name) <-> In name self.*1.
Proof.
  induction self as [|[k v] self IH]; simpl.
  - split; [by intros [? ?]|done].
  - destruct (String.eqb_spec k name) as [->|Hne].
    + split; [by left|by eexists].
    + rewrite IH. split; [by right|by intros [?|?]].
Qed.

(** *** The tree table *)

Import TreeStructuredSymbolTable.

Lemma tree_add_other {V} (node : TreeNode V) k (v : V) name :
  name <> k -> is_none node = false ->
  _get_symbol_recursively (_add_symbol_recursively node k v) name
  = _get_symbol_recursively node name.
Proof.
  intros Hne. induction node as [|n0 v0 l IHl r IHr]; [done|]. intros _.
  cbn [_add_symbol_recursively].
  destruct (String.ltb k n0); [|destruct (String.ltb n0 k); [|done]].
  - destruct l as [|ln lv ll lr].
    + simpl. destruct (String.eqb_spec name k) as [?|_]; [done|].
      by repeat case_match.
    + cbn [is_none negb _get_symbol_recursively]. by rewrite IHl.
  - destruct r as [|rn rv rl rr].
    + simpl. destruct (String.eqb_spec name k) as [?|_]; [done|].
      by repeat case_match.
    + cbn [is_none negb _get_symbol_recursively]. by rewrite IHr.
Qed.

Lemma tree_get_add {V} (root : TreeNode V) k (v : V) name :
  get_symbol (add_symbol root k v) name
  = if String.eqb k name
    then match get_symbol root name with
         | Some first => Some first
         | None => Some v
         end
    else get_symbol root name.
Proof.
  destruct (String.eqb_spec k name) as [->|Hne].
  - apply TreeFacts.get_add_symbol.
  - unfold get_symbol, add_symbol. destruct root as [|n0 v0 l r].
    + simpl. destruct (String.eqb_spec name k); [congruence|].
      by destruct (String.ltb name k).
    + apply tree_add_other; [congruence|done].
Qed.

(** The tree and the ordered table, filled alike, answer alike. *)
Lemma tree_as_ordered {V} (kvs : list (string * V)) :
  forall (root : TreeNode V) (self : list (string * V)),
    (forall name, get_symbol root name
                  = OrderedSymbolTable.get_symbol self name) ->
    forall name,
      get_symbol (add_symbols root kvs) name
      = OrderedSymbolTable.get_symbol
          (OrderedSymbolTable.add_symbols self kvs) name.
Proof.
  induction kvs as [|[k v] kvs IH]; intros root self Hsame name; [done|].
  apply IH. intros n. simpl.
  by rewrite tree_get_add, ordered_get_add, Hsame.
Qed.

(** *** The dict table *)

Lemma unordered_as_reversed {V} (kvs : list (string * V)) name :
  UnorderedSymbolTable.get_symbol
    (UnorderedSymbolTable.add_symbols UnorderedSymbolTable.init kvs) name
  = OrderedSymbolTable.get_symbol (rev kvs) name.
Proof.
  unfold UnorderedSymbolTable.get_symbol, UnorderedSymbolTable.add_symbols.
  induction kvs as [|[k v] kvs IH] using rev_ind; [done|].
  rewrite foldl_app, rev_app_distr. simpl.
  unfold UnorderedSymbolTable.add_symbol at 1.
  destruct (String.eqb_spec k name) as [->|Hne].
  - by rewrite lookup_insert_eq.
  - by rewrite lookup_insert_ne.
Qed.

Lemma In_keys_rev {V} (kvs : list (string * V)) name :
  In name (rev kvs).*1 <-> In name kvs.*1.
Proof.
  rewrite <- !list_elem_of_In, !list_elem_of_fmap.
  split; intros (p & -> & Hp); exists p; (split; [done|]);
    apply list_elem_of_In; apply list_elem_of_In in Hp.
  - by apply in_rev.
  - by apply in_rev in Hp.
Qed.

End TableLookups.

Module HashLookups.
Import HashSymbolTable HashFacts HashInv.

Section Hashed.
Context {V : Type} (hash : string -> Z).
Implicit Types (self : t V) (name : string) (value : V).

Lemma get_added_ne self name name' value :
  wf hash self -> name' <> name ->
  get_symbol hash (added hash self name value) name'
  = get_symbol hash self name'.
Proof.
  intros Hwf Hne. pose proof (added_wf hash self name value Hwf) as [Hs' _].
  destruct Hwf as [Hs _]. rewrite !get_symbol_eq by done. f_equal.
  unfold bucket_of.
  change (home hash (added hash self name value) name')
    with (home hash self name').
  unfold added. cbn [table].
  destruct (decide (home hash self name' = home hash self name)) as [Heq|Hd].
  - rewrite Heq, list_lookup_insert_eq by (by apply home_lt). simpl.
    by rewrite scan_upsert_ne.
  - by rewrite list_lookup_insert_ne.
Qed.

Lemma get_init (n : Z) name :
  (1 <= n)%Z -> get_symbol hash (init n : t V) name = Ok None.
Proof.
  intros Hn. rewrite get_symbol_eq by apply (init_wf hash n Hn).
  f_equal. unfold bucket_of. simpl.
  destruct (replicate (Z.to_nat n) None !! home hash (init n) name)
    as [b|] eqn:Hb; [|done].
  by apply lookup_replicate in Hb as [-> _].
Qed.

(** The hash table and the dict, filled alike, answer alike. *)
Lemma hash_as_unordered (kvs : list (string * V)) :
  forall self (m : gmap string V),
    wf hash self ->
    (forall name, get_symbol hash self name = Ok (m !! name)) ->
    exists self',
      add_symbols hash self kvs = Ok self' /\ wf hash self'
      /\ size self' = size self
      /\ forall name,
           get_symbol hash self' name
           = Ok (UnorderedSymbolTable.add_symbols m kvs !! name).
Proof.
  induction kvs as [|[k v] kvs IH]; intros self m Hwf Hsame.
  - by exists self.
  - simpl. rewrite add_symbol_eq by apply Hwf. simpl.
    fold (added hash self k v).
    destruct (IH (added hash self k v) (UnorderedSymbolTable.add_symbol m k v))
      as (self' & Hadd & Hwf' & Hsize & Hget).
    + by apply added_wf.
    + intros name. unfold UnorderedSymbolTable.add_symbol.
      destruct (decide (name = k)) as [->|Hne].
      * rewrite lookup_insert_eq. by apply get_added_eq.
      * rewrite lookup_insert_ne by done.
        rewrite get_added_ne by done. apply Hsame.
    + exists self'. done.
Qed.

(** A table made with a negative size has no bucket. *)
Lemma add_negative_size (n : Z) name value :
  (n < 0)%Z -> add_symbol hash (init n) name value = Raise IndexError.
Proof.
  intros Hn. unfold add_symbol, hash_function, init. cbn [size table].
  destruct (Z.eqb_spec n 0); [lia|]. cbn [rbind].
  replace (Z.to_nat n) with 0 by lia. cbn [replicate].
  unfold PyList.getitem, PyList.position. simpl.
  by repeat case_match.
Qed.

Lemma get_negative_size (n : Z) name :
  (n < 0)%Z -> get_symbol hash (init n : t V) name = Raise IndexError.
Proof.
  intros Hn. unfold get_symbol, hash_function, init. cbn [size table].
  destruct (Z.eqb_spec n 0); [lia|]. cbn [rbind].
  replace (Z.to_nat n) with 0 by lia. cbn [replicate].
  unfold PyList.getitem, PyList.position. simpl.
  by repeat case_match.
Qed.

End Hashed.
End HashLookups.



(** X13: after any sequence of [add_symbol] calls on a new table,
    [get_symbol] finds a name exactly when the name was given to one of
    the calls; a name never added is answered with [None], in the ordered
    table, the dict and the hash table with at least one bucket. *)
Theorem get_symbol_finds_added_names {V : Type} (hash : string -> Z)
    (size : Z) (kvs : list (string * V)) (name : string) :
  (1 <= size)%Z ->
  (is_Some (OrderedSymbolTable.get_symbol
              (OrderedSymbolTable.add_symbols OrderedSymbolTable.init kvs)
              name) <-> In name kvs.*1)
  /\ (is_Some (UnorderedSymbolTable.get_symbol
                 (UnorderedSymbolTable.add_symbols
                    UnorderedSymbolTable.init kvs) name)
      <-> In name kvs.*1)
  /\ (exists self found,
        HashSymbolTable.add_symbols hash (HashSymbolTable.init size) kvs
        = Ok self
        /\ HashSymbolTable.get_symbol hash self name = Ok found
        /\ (is_Some found <-> In name kvs.*1)).
Proof.
  intros Hsize.
  assert (is_Some (UnorderedSymbolTable.get_symbol
                     (UnorderedSymbolTable.add_symbols
                        UnorderedSymbolTable.init kvs) name)
          <-> In name kvs.*1) as Hdict.
  { rewrite TableLookups.unordered_as_reversed, TableLookups.ordered_found.
    apply TableLookups.In_keys_rev. }
  split; [|split; [done|]].
  - rewrite TableLookups.ordered_add_symbols.
    apply TableLookups.ordered_found.
  - destruct (HashLookups.hash_as_unordered hash kvs
                (HashSymbolTable.init size) UnorderedSymbolTable.init)
      as (self & Hself & _ & _ & Hget).
    + by apply HashInv.init_wf.
    + intros n. by rewrite HashLookups.get_init.
    + exists self. eexists. split; [done|]. split; [apply Hget|]. exact Hdict.
Qed.

(** X13 at the length hash, ten buckets and the name [z], never added. *)
Lemma get_symbol_finds_added_names_witness :
  (1 <= 10)%Z
  /\ exists self found,
       HashSymbolTable.add_symbols length_hash (HashSymbolTable.init 10)
         [("x", 1); ("y", 2)] = Ok self
       /\ HashSymbolTable.get_symbol length_hash self "z" = Ok found
       /\ (is_Some found <-> In "z" [("x", 1); ("y", 2)].*1).
Proof.
  split; [lia|].
  apply (get_symbol_finds_added_names length_hash 10 [("x", 1); ("y", 2)] "z").
  lia.
Defined.

(** ** The tree table within the recursion limit *)

Module TreeLimitedFacts.
Import TreeStructuredSymbolTable.

Lemma new_node_sound {V} depth name (value : V) leaf :
  TreeLimited.new_node depth name value = Some leaf ->
  leaf = Node name value Nil Nil.
Proof. destruct depth; simpl; [done|]. by intros [= <-]. Qed.

(** A call that stays within the limit does what the call without a limit
    does. *)
Lemma add_sound {V} depth (node : TreeNode V) name value node' :
  TreeLimited._add_symbol_recursively depth node name value = Some node' ->
  node' = _add_symbol_recursively node name value.
Proof.
  revert node node'. induction depth as [|depth IH]; intros node node';
    [done|].
  destruct node as [|n v l r]; cbn [TreeLimited._add_symbol_recursively
    _add_symbol_recursively]; [by intros [= <-]|].
  destruct (String.ltb name n); [|destruct (String.ltb n name)].
  - destruct (negb (is_none l)).
    + destruct (TreeLimited._add_symbol_recursively depth l name value)
        as [l'|] eqn:Hl; simpl; [|done].
      intros [= <-]. by rewrite (IH _ _ Hl).
    + destruct (TreeLimited.new_node depth name value) as [leaf|] eqn:Hleaf;
        simpl; [|done].
      intros [= <-]. by rewrite (new_node_sound _ _ _ _ Hleaf).
  - destruct (negb (is_none r)).
    + destruct (TreeLimited._add_symbol_recursively depth r name value)
        as [r'|] eqn:Hr; simpl; [|done].
      intros [= <-]. by rewrite (IH _ _ Hr).
    + destruct (TreeLimited.new_node depth name value) as [leaf|] eqn:Hleaf;
        simpl; [|done].
      intros [= <-]. by rewrite (new_node_sound _ _ _ _ Hleaf).
  - by intros [= <-].
Qed.

Lemma add_symbol_sound {V} depth (root : TreeNode V) name value root' :
  TreeLimited.add_symbol depth root name value = Some root' ->
  root' = add_symbol root name value.
Proof.
  unfold TreeLimited.add_symbol, add_symbol. destruct (is_none root).
  - apply new_node_sound.
  - apply add_sound.
Qed.

Lemma add_symbols_sound {V} depth (kvs : list (string * V)) :
  forall root root',
    TreeLimited.add_symbols depth root kvs = Some root' ->
    root' = add_symbols root kvs.
Proof.
  induction kvs as [|[k v] kvs IH]; intros root root'; simpl.
  - by intros [= <-].
  - destruct (TreeLimited.add_symbol depth root k v) as [root1|] eqn:Hadd;
      simpl; [|done].
    intros Hrest. apply add_symbol_sound in Hadd as ->. by apply IH.
Qed.

Lemma get_sound {V} depth (node : TreeNode V) name found :
  TreeLimited._get_symbol_recursively depth node name = Some found ->
  found = _get_symbol_recursively node name.
Proof.
  revert node. induction depth as [|depth IH]; intros node; [done|].
  destruct node as [|n v l r]; cbn [TreeLimited._get_symbol_recursively
    _get_symbol_recursively]; [by intros [= <-]|].
  destruct (String.eqb name n); [by intros [= <-]|].
  destruct (String.ltb name n); apply IH.
Qed.

End TreeLimitedFacts.

(** X14: as long as no call goes beyond the recursion limit, the tree
    table answers as the ordered table does: when a sequence of
    [add_symbol] calls on a new tree and a [get_symbol] after them return
    without RecursionError, the lookup returns what the ordered table
    returns after the same calls, the value of the first call with that
    name; the list of the ordered table is the sequence of the calls. *)
Theorem tree_answers_as_ordered {V : Type} (depth : nat)
    (kvs : list (string * V)) (name : string)
    (root : TreeStructuredSymbolTable.TreeNode V) (found : option V) :
  TreeLimited.add_symbols depth TreeStructuredSymbolTable.init kvs
  = Some root ->
  TreeLimited.get_symbol depth root name = Some found ->
  found = OrderedSymbolTable.get_symbol
            (OrderedSymbolTable.add_symbols OrderedSymbolTable.init kvs) name
  /\ OrderedSymbolTable.add_symbols OrderedSymbolTable.init kvs = kvs.
Proof.
  intros Hadd Hget. split; [|apply TableLookups.ordered_add_symbols].
  apply TreeLimitedFacts.add_symbols_sound in Hadd as ->.
  apply TreeLimitedFacts.get_sound in Hget as ->.
  by apply TableLookups.tree_as_ordered.
Qed.

(** X14 at three calls and room for three nested calls. *)
Lemma tree_answers_as_ordered_witness :
  let kvs := [("m", 1); ("x", 2); ("m", 3)] in
  let root :=
    TreeStructuredSymbolTable.Node "m" 1 TreeStructuredSymbolTable.Nil
      (TreeStructuredSymbolTable.Node "x" 2 TreeStructuredSymbolTable.Nil
         TreeStructuredSymbolTable.Nil) in
  TreeLimited.add_symbols 3 TreeStructuredSymbolTable.init kvs = Some root
  /\ TreeLimited.get_symbol 3 root "m" = Some (Some 1)
  /\ Some 1 = OrderedSymbolTable.get_symbol
                (OrderedSymbolTable.add_symbols OrderedSymbolTable.init kvs)
                "m".
Proof.
  split; [reflexivity|]. split; [reflexivity|].
  apply (tree_answers_as_ordered 3 [("m", 1); ("x", 2); ("m", 3)] "m"
           (TreeStructuredSymbolTable.Node "m" 1 TreeStructuredSymbolTable.Nil
              (TreeStructuredSymbolTable.Node "x" 2
                 TreeStructuredSymbolTable.Nil TreeStructuredSymbolTable.Nil))
           (Some 1)); reflexivity.
Defined.

(** X15: the hash table with at least one bucket answers as the dict does,
    whatever the hash function: after the same sequence of [add_symbol]
    calls both return, for every name, the value of the last call with
    that name, which is what the ordered table returns after the calls in
    reverse order. *)
Theorem hash_answers_as_dict {V : Type} (hash : string -> Z) (size : Z)
    (kvs : list (string * V)) (name : string) :
  (1 <= size)%Z ->
  exists self,
    HashSymbolTable.add_symbols hash (HashSymbolTable.init size) kvs = Ok self
    /\ HashSymbolTable.get_symbol hash self name
       = Ok (UnorderedSymbolTable.get_symbol
               (UnorderedSymbolTable.add_symbols
                  UnorderedSymbolTable.init kvs) name)
    /\ UnorderedSymbolTable.get_symbol
         (UnorderedSymbolTable.add_symbols UnorderedSymbolTable.init kvs)
         name
       = OrderedSymbolTable.get_symbol (rev kvs) name.
Proof.
  intros Hsize.
  destruct (HashLookups.hash_as_unordered hash kvs
              (HashSymbolTable.init size) UnorderedSymbolTable.init)
    as (self & Hself & _ & _ & Hget).
  - by apply HashInv.init_wf.
  - intros n. by rewrite HashLookups.get_init.
  - exists self. split; [done|]. split; [apply Hget|].
    apply TableLookups.unordered_as_reversed.
Qed.

(** X15 at the length hash, ten buckets and three calls. *)
Lemma hash_answers_as_dict_witness :
  (1 <= 10)%Z
  /\ exists self,
       HashSymbolTable.add_symbols length_hash (HashSymbolTable.init 10)
         [("x", 1); ("y", 2); ("x", 3)] = Ok self
       /\ HashSymbolTable.get_symbol length_hash self "x"
          = Ok (UnorderedSymbolTable.get_symbol
                  (UnorderedSymbolTable.add_symbols
                     UnorderedSymbolTable.init
                     [("x", 1); ("y", 2); ("x", 3)]) "x")
       /\ UnorderedSymbolTable.get_symbol
            (UnorderedSymbolTable.add_symbols UnorderedSymbolTable.init
               [("x", 1); ("y", 2); ("x", 3)]) "x"
          = OrderedSymbolTable.get_symbol
              (rev [("x", 1); ("y", 2); ("x", 3)]) "x".
Proof.
  split; [lia|].
  apply (hash_answers_as_dict length_hash 10
           [("x", 1); ("y", 2); ("x", 3)] "x").
  lia.
Defined.

(** X16: a hash table made with a negative size has no bucket: every
    [add_symbol] and every [get_symbol] raises IndexError. *)
Theorem hash_table_negative_size {V : Type} (hash : string -> Z) (size : Z)
    (name : string) (value : V) :
  (size < 0)%Z ->
  HashSymbolTable.table (HashSymbolTable.init size : HashSymbolTable.t V) = []
  /\ HashSymbolTable.add_symbol hash (HashSymbolTable.init size) name value
     = Raise IndexError
  /\ HashSymbolTable.get_symbol hash
       (HashSymbolTable.init size : HashSymbolTable.t V) name
     = Raise IndexError.
Proof.
  intros Hsize.
  split; [|split].
  - simpl. by replace (Z.to_nat size) with 0 by lia.
  - by apply HashLookups.add_negative_size.
  - by apply HashLookups.get_negative_size.
Qed.

(** X16 at the length hash and the size -2. *)
Lemma hash_table_negative_size_witness :
  (-2 < 0)%Z
  /\ HashSymbolTable.add_symbol length_hash (HashSymbolTable.init (-2)) "x" 1
     = Raise IndexError.
Proof.
  split; [lia|].
  apply (hash_table_negative_size length_hash (-2) "x" 1). lia.
Defined.

(** X17: after any sequence of [add_symbol] calls a hash table with at
    least one bucket keeps its size and as many buckets as its size, and
    every name it stores is in the bucket of index [hash(name) % size]. *)
Theorem hash_table_buckets {V : Type} (hash : string -> Z) (size : Z)
    (kvs : list (string * V)) :
  (1 <= size)%Z ->
  exists self,
    HashSymbolTable.add_symbols hash (HashSymbolTable.init size) kvs = Ok self
    /\ HashSymbolTable.size self = size
    /\ Z.of_nat (length (HashSymbolTable.table self)) = size
    /\ forall i bucket name,
         HashSymbolTable.table self !! i = Some (Some bucket) ->
         In name bucket.*1 ->
         Z.of_nat i = (hash name mod size)%Z.
Proof.
  intros Hsize.
  destruct (HashInv.add_symbols_wf hash (HashSymbolTable.init size) kvs)
    as (self & Hself & [[_ Hlen] Hb] & Hsz); [by apply HashInv.init_wf|].
  simpl in Hsz. exists self. split; [done|]. split; [done|].
  split; [rewrite Hlen; lia|].
  intros i bucket name Hi Hin.
  destruct (Hb i bucket Hi) as [_ Hhome].
  rewrite <- (Hhome name) by (by apply list_elem_of_In).
  unfold HashSymbolTable.home. rewrite Hsz.
  pose proof (Z.mod_pos_bound (hash name) size ltac:(lia)). lia.
Qed.

(** X17 at the length hash, three buckets and three calls. *)
Lemma hash_table_buckets_witness :
  (1 <= 3)%Z
  /\ exists self,
       HashSymbolTable.add_symbols length_hash (HashSymbolTable.init 3)
         [("x", 1); ("yyyy", 2); ("zz", 3)] = Ok self
       /\ HashSymbolTable.size self = 3%Z
       /\ Z.of_nat (length (HashSymbolTable.table self)) = 3%Z
       /\ forall i bucket name,
            HashSymbolTable.table self !! i = Some (Some bucket) ->
            In name bucket.*1 ->
            Z.of_nat i = (length_hash name mod 3)%Z.
Proof.
  split; [lia|].
  apply (hash_table_buckets length_hash 3 [("x", 1); ("yyyy", 2); ("zz", 3)]).
  lia.
Defined.

Module LexerStrings.
Import Re Lexer LexerMore LexerRuns.

(** The starred class of a string literal stops at the closing quote. *)
Lemma match_star_to_quote k s :
  Chars.all not_quote s = true ->
  k (String dquote EmptyString) = Some 1 ->
  match_star not_quote k (s +:+ String dquote EmptyString)
  = Some (String.length s + 1).
Proof.
  intros Hall Hk. induction s as [|c s IH].
  - simpl. change (not_quote dquote) with false. by rewrite Hk.
  - simpl in Hall. apply andb_prop in Hall as [Hc Hs].
    change (String c s +:+ String dquote EmptyString)
      with (String c (s +:+ String dquote EmptyString)).
    cbn [match_star]. rewrite Hc, (IH Hs). done.
Qed.

End LexerStrings.

(** X18: a double quote, any characters but the double quote, newlines
    included, and a closing double quote are one STRING token, the whole
    text with its quotes. *)
Theorem tokenize_string_literal (s : string) :
  Chars.all Re.not_quote s = true ->
  Lexer.tokenize (String Re.dquote (s +:+ String Re.dquote EmptyString))
  = Some [("STRING", String Re.dquote (s +:+ String Re.dquote EmptyString))].
Proof.
  intros Hs. apply LexerRuns.tokenize_whole; [simpl; lia|].
  set (code := String Re.dquote (s +:+ String Re.dquote EmptyString)).
  unfold Lexer.loop_body, Lexer.patterns. cbn [Lexer.scan_patterns].
  replace (Re.regex_match [(Re.ident_start, Re.One); (Re.ident_char, Re.Star)]
             code 0) with (@None Re.Match) by reflexivity.
  replace (Re.regex_match [(Re.digit, Re.Plus)] code 0)
    with (@None Re.Match) by reflexivity.
  replace (Re.regex_match [(Re.op_char, Re.One)] code 0)
    with (@None Re.Match) by reflexivity.
  rewrite (LexerRuns.regex_match_whole _ code); [done|].
  unfold code. cbn [Re.match_regex Re.match_one].
  change (Re.quote_char Re.dquote) with true. cbv iota.
  rewrite LexerStrings.match_star_to_quote; [|done|reflexivity]. simpl.
  f_equal. rewrite LexerMore.length_append. simpl. lia.
Qed.

(** X18 at a literal of two lines. *)
Lemma tokenize_string_literal_witness :
  Chars.all Re.not_quote (String "a" (String Re.newline "b")) = true
  /\ Lexer.tokenize
       (String Re.dquote
          (String "a" (String Re.newline "b") +:+ String Re.dquote EmptyString))
     = Some [("STRING",
              String Re.dquote
                (String "a" (String Re.newline "b")
                 +:+ String Re.dquote EmptyString))].
Proof.
  split; [reflexivity|].
  apply (tokenize_string_literal (String "a" (String Re.newline "b"))).
  reflexivity.
Defined.
